(** * Training utilities of [utils.py]: a verification development

    Shallow embedding of the helpers of [src/utils.py] and the properties
    their specification states about them.

    Conventions of the embedding:
    - Python exceptions are values of [PyError]; a function that may raise
      returns a [result].
    - Python numbers (learning rates, coefficients, clip bounds) are
      IEEE-754 binary64 numbers (Rocq's primitive [float]), so that
      comparisons against NaN and the product [lr * coef[i]] are the
      machine's.
    - A tensor carries its element type; its elements are held as the
      binary64 numbers they equal, and a Python number written into a
      tensor is first converted to the element type of the tensor.
    - Epochs and epoch thresholds are integers ([Z]).
    - Dictionaries are [gmap]s where only their contents matter and
      association lists where iteration order is observable. *)

From Stdlib Require Import ZArith Floats Sorted.
From stdpp Require Import gmap strings list fin_maps.

(** ** Exceptions *)

Inductive PyError :=
  | AssertionError
  | IndexError
  | AttributeError
  | KeyError
  | TypeError
  | ValueError
  | RuntimeError
  | RecursionError.

Inductive result (A : Type) :=
  | Ok (a : A)
  | Raise (e : PyError).
Arguments Ok {A} a.
Arguments Raise {A} e.

Definition rbind {A B} (m : result A) (k : A → result B) : result B :=
  match m with
  | Ok a => k a
  | Raise e => Raise e
  end.

Notation "x ←? m ; k" := (rbind m (λ x, k))
  (at level 20, m at level 100, k at level 200, right associativity,
   format "'[' x  ←?  m ;  '/' k ']'").

(** [l[i]] of a Python list, for a non-negative index. *)
Definition getitem {A} (l : list A) (i : nat) : result A :=
  match l !! i with
  | Some x => Ok x
  | None => Raise IndexError
  end.

(** [for x in l: ...] with a body that may raise: the results in order, or
    the first error. *)
Fixpoint for_each {A B} (f : A → result B) (l : list A) : result (list B) :=
  match l with
  | [] => Ok []
  | x :: rest => y ←? f x; ys ←? for_each f rest; Ok (y :: ys)
  end.

(** ** [index_dict] *)

(** [value[idcs]]: what subscripting a value of type [V] by an index of
    type [I] gives, or the error it raises. *)
Class Subscript (V I R : Type) := subscript : V → I → result R.

(** A list subscripted by a position. *)
Global Instance list_subscript {A} : Subscript (list A) nat A := getitem.

(** A list subscripted by a list of positions (an index array). *)
Global Instance list_take_subscript {A} : Subscript (list A) (list nat) (list A) :=
  fix take (l : list A) (idcs : list nat) : result (list A) :=
    match idcs with
    | [] => Ok []
    | i :: rest => x ←? getitem l i; xs ←? take l rest; Ok (x :: xs)
    end.

Module IndexDict.
Section index_dict.
Context {K : Type} `{Countable K} {V I R : Type} `{!Subscript V I R}.

(** The two dictionaries the function works on. *)
Record locals := mk { data : gmap K V; returns : gmap K R }.

(** [returns[key] = data[key][idcs]]. *)
Definition body (idcs : I) (key : K) (st : locals) : result locals :=
  match data st !! key with
  | None => Raise KeyError
  | Some value =>
      x ←? subscript value idcs;
      Ok (mk (data st) (<[key := x]> (returns st)))
  end.

(** [for key in data: ...] over the keys in the order [keys]. *)
Fixpoint loop (idcs : I) (keys : list K) (st : locals) : result locals :=
  match keys with
  | [] => Ok st
  | key :: rest => st ←? body idcs key st; loop idcs rest st
  end.

(** The dictionaries when the function returns. *)
Definition run (data : gmap K V) (idcs : I) : result locals :=
  loop idcs (map_to_list data).*1 (mk data ∅).

Definition index_dict (data : gmap K V) (idcs : I) : result (gmap K R) :=
  st ←? run data idcs; Ok (returns st).

End index_dict.
End IndexDict.

(** ** IEEE-754 comparisons

    [<] and [>] on tensors are the IEEE comparisons: both are false as soon
    as one operand is NaN. *)

Module F.

(** [x > y] is [y < x]. *)
Definition gtb (x y : float) : bool := PrimFloat.ltb y x.


End F.

(** ** Element types of tensors *)

Module Dtype.

(** The floating-point element types. *)
Inductive t := Float16 | BFloat16 | Float32 | Float64.

Definition eqb (a b : t) : bool :=
  match a, b with
  | Float16, Float16 | BFloat16, BFloat16
  | Float32, Float32 | Float64, Float64 => true
  | _, _ => false
  end.

(** A binary64 number rounded to the format with [prec] bits of precision
    whose infinities have exponent [emax]: to nearest, ties to even, and
    to an infinity when it is too large.  The zeros, the infinities and NaN
    are numbers of every format. *)
Definition round_to (prec emax : Z) (x : float) : float :=
  match Prim2SF x with
  | S754_finite s m e => SF2Prim (binary_round prec emax s m e)
  | _ => x
  end.

(** A binary64 number converted to an element type, as the library's
    casts do: the two half-precision types are reached through single
    precision. *)
Definition cast (d : t) (x : float) : float :=
  match d with
  | Float16 => round_to 11 16 (round_to 24 128 x)
  | BFloat16 => round_to 8 128 (round_to 24 128 x)
  | Float32 => round_to 24 128 x
  | Float64 => x
  end.

(** The largest finite number of an element type. *)
Definition finfo_max (d : t) : float :=
  match d with
  | Float16 => 0x1.ffcp15
  | BFloat16 => 0x1.fep127
  | Float32 => 0x1.fffffep127
  | Float64 => 0x1.fffffffffffffp1023
  end.

(** A Python number is out of the range of an element type: it is not an
    infinity and lies beyond the largest finite number.  A binary64 number
    is never out of the range of binary64. *)
Definition overflows (d : t) (x : float) : bool :=
  match d with
  | Float64 => false
  | _ =>
      negb (is_infinity x)
      && ((x <? - finfo_max d)%float || (finfo_max d <? x)%float)
  end.

(** A Python number converted to be stored in a tensor of element type
    [d]: out of range it is refused. *)
Definition checked (d : t) (x : float) : result float :=
  if overflows d x then Raise RuntimeError else Ok (cast d x).

(** An element of a tensor of type [src] copied into a tensor of type
    [dst]. *)
Definition convert (src dst : t) (x : float) : float :=
  if eqb src dst then x else cast dst x.

End Dtype.

(** ** [load_pretrain] *)

Module Net.

Record Tensor := mk_tensor {
  size : list nat;
  dtype : Dtype.t;
  values : list float
}.

(** A value of a checkpoint: a tensor, or an object that is not a
    [torch.Tensor] but wraps one in its [data] attribute and answers
    [size()] for it. *)
Inductive entry :=
  | Plain (t : Tensor)
  | Wrapped (data : Tensor).

Definition entry_size (e : entry) : list nat :=
  match e with
  | Plain t => size t
  | Wrapped d => size d
  end.

(** A model is its mapping from parameter names to tensors;
    [state_dict()] returns that mapping. *)
Definition state_dict (net : gmap string Tensor) : gmap string Tensor := net.

(** [param.copy_(input_param)], the sizes being equal: the parameter keeps
    its element type and takes the values of the input, converted to that
    type when the input has another. *)
Definition copy_ (param input_param : Tensor) : Tensor :=
  mk_tensor (size param) (dtype param)
    (map (Dtype.convert (dtype input_param) (dtype param))
         (values input_param)).

(** [net.load_state_dict(state_dict)], strict: the keys must be those of
    the model and every tensor must have the size of the parameter it is
    copied into; the model after the call. *)
Definition load_state_dict (net state_dict : gmap string Tensor)
  : result (gmap string Tensor) :=
  if bool_decide (dom state_dict = dom net ∧
                  map_Forall (λ key t, size <$> state_dict !! key = Some (size t))
                             net)
  then Ok (map_zip_with copy_ net state_dict)
  else Raise RuntimeError.

(** The body of the loop of [load_pretrain]. *)
Definition body (key : string) (entry : entry)
    (state_dict : gmap string Tensor) : gmap string Tensor :=
  match state_dict !! key with
  | Some current =>
      if bool_decide (entry_size entry = size current) then
        let value :=
          match entry with
          | Plain t => t
          | Wrapped d => d
          end in
        <[key := value]> state_dict
      else state_dict
  | None => state_dict
  end.

(** [load_pretrain]: the model after the call; the function itself
    returns nothing. *)
Definition load_pretrain (net : gmap string Tensor)
    (pretrain_dict : gmap string entry) : result (gmap string Tensor) :=
  let state_dict := state_dict net in
  let state_dict := map_fold body state_dict pretrain_dict in
  load_state_dict net state_dict.

(** The tensor an entry holds. *)
Definition entry_tensor (e : entry) : Tensor :=
  match e with
  | Plain t => t
  | Wrapped d => d
  end.

(** What the loop of [load_pretrain] is to leave under [key] of its
    [state_dict]. *)
Definition expected (net : gmap string Tensor)
    (pretrain_dict : gmap string entry) (key : string) : option Tensor :=
  match net !! key, pretrain_dict !! key with
  | Some current, Some e =>
      if bool_decide (entry_size e = size current)
      then Some (entry_tensor e)
      else Some current
  | Some current, None => Some current
  | None, _ => None
  end.

End Net.

(** ** [StepLR]: the piecewise-constant schedule *)

Module StepLR.

Record t := mk { lr : list float; lr_epochs : list Z }.

(** [__init__]: [assert len(lr) - len(lr_epochs) == 1]. *)
Definition init (lr : list float) (lr_epochs : list Z) : result t :=
  if (Z.of_nat (length lr) - Z.of_nat (length lr_epochs) =? 1)%Z
  then Ok (mk lr lr_epochs)
  else Raise AssertionError.

(** The [for] loop of [__call__], started with the counter at [idx]:
    it stops at the first threshold the epoch is below. *)
Fixpoint scan (epoch : Z) (lr_epochs : list Z) (idx : nat) : nat :=
  match lr_epochs with
  | [] => idx
  | lr_epoch :: rest =>
      if (epoch <? lr_epoch)%Z then idx else scan epoch rest (S idx)
  end.

(** [__call__]. *)
Definition call (self : t) (epoch : Z) : result float :=
  getitem (lr self) (scan epoch (lr_epochs self) 0).

(** [state_dict]. *)
Record state := mk_state { st_lr : list float; st_lr_epochs : list Z }.

Definition state_dict (self : t) : state :=
  mk_state (lr self) (lr_epochs self).

(** [idx] is the index [__call__] must use: every threshold before it is
    at most [epoch], and it is either past the end of the thresholds or
    the position of a threshold above [epoch]. *)
Definition first_above (epoch : Z) (thresholds : list Z) (idx : nat) : Prop :=
  (∀ j th, j < idx → thresholds !! j = Some th → (th ≤ epoch)%Z) ∧
  (idx = length thresholds ∨
   ∃ th, thresholds !! idx = Some th ∧ (epoch < th)%Z).

(** The schedule the optimizer wrapper is built with. *)
Definition rate_hi : float := 0x1.0624dd2f1a9fcp-10 (* 1e-3 *).
Definition rate_lo : float := 0x1.a36e2eb1c432dp-14 (* 1e-4 *).
Definition default : t := mk [rate_hi; rate_lo] [32%Z].

End StepLR.


(** ** Tensors and the underlying optimizer ([torch], [torch.optim])

    The wrapper only reads and writes the parameter groups of the
    underlying optimizer and calls its methods; what the methods do is the
    library's and is left abstract. *)

Module Torch.

(** A tensor flattened to the list of its elements, with its element
    type. *)
Record Tensor := mk_tensor { dtype : Dtype.t; elems : list float }.

(** [torch.tensor(values)] of Python numbers: single precision, the
    default element type. *)
Definition tensor (values : list float) : Tensor :=
  mk_tensor Dtype.Float32 (map (Dtype.cast Dtype.Float32) values).

(** The same in double precision: [torch.tensor(values,
    dtype=torch.float64)]. *)
Definition tensor64 (values : list float) : Tensor :=
  mk_tensor Dtype.Float64 values.

(** [t < x] and [t > x] for a Python number [x]: the element-wise
    comparison with [x] converted to the element type of [t]. *)
Definition lt (t : Tensor) (x : float) : list bool :=
  map (λ e, (e <? Dtype.cast (dtype t) x)%float) (elems t).

Definition gt (t : Tensor) (x : float) : list bool :=
  map (λ e, F.gtb e (Dtype.cast (dtype t) x)) (elems t).

(** [t[mask] = x] for a Python number [x] and a mask of the shape of [t]:
    [x] is converted to the element type of [t], which fails when it is
    out of range, and written wherever the mask holds. *)
Definition setitem (t : Tensor) (mask : list bool) (x : float)
  : result Tensor :=
  if negb (length mask =? length (elems t))%nat then Raise IndexError
  else
    v ←? Dtype.checked (dtype t) x;
    Ok (mk_tensor (dtype t)
          (zip_with (λ e (m : bool), if m then v else e) (elems t) mask)).

(** A parameter: its values and, when one has been computed, its
    gradient. *)
Record Param := mk_param { data : Tensor; grad : option Tensor }.

(** A parameter group: [{"params": ..., "lr": ...}]. *)
Record ParamGroup := mk_group { params : list Param; lr : float }.

Record optimizer (S : Type) :=
  mk_opt { param_groups : list ParamGroup; inner : S }.
Arguments mk_opt {S} param_groups inner.
Arguments param_groups {S} o.
Arguments inner {S} o.

(** The methods of the library the wrapper relies on; [S] is the
    optimizer's own state, [D] its serialised form.  [adam_state] and
    [sgd_state] stand for the constructors [optim.Adam(groups,
    weight_decay=wd)] and [optim.SGD(groups, momentum=m, weight_decay=wd)],
    which may refuse their arguments. *)
Class Backend (S D : Type) := {
  adam_state : list ParamGroup → float → result S;
  sgd_state : list ParamGroup → float → float → result S;
  step : optimizer S → optimizer S;
  zero_grad : optimizer S → optimizer S;
  state_dict : optimizer S → D;
  load_state_dict : optimizer S → D → result (optimizer S)
}.

End Torch.

(** ** [Optimizer]: the scheduled, clipped wrapper *)

Module Optimizer.

(** The entries of the [config] dictionary of [__init__]. *)
Inductive config_value :=
  | CStr (s : string)
  | CFloat (x : float)
  | CFloats (l : list float)
  | CInts (l : list Z)
  | CBool (b : bool)
  | CSchedule (f : StepLR.t).

Definition cfg_get (config : gmap string config_value) (key : string)
  : result config_value :=
  match config !! key with
  | Some v => Ok v
  | None => Raise KeyError
  end.

Definition as_str (v : config_value) : result string :=
  match v with CStr s => Ok s | _ => Raise TypeError end.
Definition as_float (v : config_value) : result float :=
  match v with CFloat x => Ok x | _ => Raise TypeError end.
Definition as_floats (v : config_value) : result (list float) :=
  match v with CFloats l => Ok l | _ => Raise TypeError end.
Definition as_ints (v : config_value) : result (list Z) :=
  match v with CInts l => Ok l | _ => Raise TypeError end.
Definition as_bool (v : config_value) : result bool :=
  match v with CBool b => Ok b | _ => Raise TypeError end.
Definition as_schedule (v : config_value) : result StepLR.t :=
  match v with CSchedule f => Ok f | _ => Raise TypeError end.

(** The [params] argument: a list (or tuple) of parameter collections, or
    anything else, which is wrapped into a one-element list. *)
Inductive params_arg :=
  | Single (param : list Torch.Param)
  | Many (params : list (list Torch.Param)).

(** An attribute that [__init__] may have left unset. *)
Definition attr {A} (a : option A) : result A :=
  match a with
  | Some x => Ok x
  | None => Raise AttributeError
  end.

Section with_backend.
Context {S D : Type} {backend : Torch.Backend S D}.

Record t := mk {
  coef : list float;
  opt : Torch.optimizer S;
  lr_func : StepLR.t;
  clip_grads : bool;
  clip_low : option float;
  clip_high : option float
}.

Definition with_opt (self : t) (o : Torch.optimizer S) : t :=
  mk (coef self) o (lr_func self) (clip_grads self)
     (clip_low self) (clip_high self).

(** [__init__(self, params, coef=None)]. *)
Definition init (params : params_arg) (coef : option (list float)) : result t :=
  let params := match params with Single p => [p] | Many ps => ps end in
  let coef := replicate (length params) 1%float in
  let config : gmap string config_value := ∅ in
  let config := <["opt" := CStr "adam"]> config in
  let config := <["lr" := CFloats [StepLR.rate_hi; StepLR.rate_lo]]> config in
  let config := <["lr_epochs" := CInts [32%Z]]> config in
  rates ←? rbind (cfg_get config "lr") as_floats;
  thresholds ←? rbind (cfg_get config "lr_epochs") as_ints;
  schedule ←? StepLR.init rates thresholds;
  let config := <["lr_func" := CSchedule schedule]> config in
  let param_groups := map (λ param, Torch.mk_group param 0%float) params in
  opt ←? rbind (cfg_get config "opt") as_str;
  if negb (String.eqb opt "sgd" || String.eqb opt "adam")
  then Raise AssertionError
  else
    o ←? (if String.eqb opt "sgd" then
            momentum ←? rbind (cfg_get config "momentum") as_float;
            wd ←? rbind (cfg_get config "wd") as_float;
            st ←? Torch.sgd_state param_groups momentum wd;
            Ok (Torch.mk_opt param_groups st)
          else
            st ←? Torch.adam_state param_groups 0%float;
            Ok (Torch.mk_opt param_groups st));
    lr_func ←? rbind (cfg_get config "lr_func") as_schedule;
    if bool_decide (is_Some (config !! "clip_grads")) then
      cg ←? rbind (cfg_get config "clip_grads") as_bool;
      low ←? rbind (cfg_get config "clip_low") as_float;
      high ←? rbind (cfg_get config "clip_high") as_float;
      Ok (mk coef o lr_func cg (Some low) (Some high))
    else
      Ok (mk coef o lr_func false None None).

(** [zero_grad]. *)
Definition zero_grad (self : t) : t :=
  with_opt self (Torch.zero_grad (opt self)).

(** The body of the second loop of [clip], on the gradient of one
    parameter:
    [mask = g < low; g[mask] = low; mask = g > high; g[mask] = high]. *)
Definition clip_grad (low high : float) (g : Torch.Tensor)
  : result Torch.Tensor :=
  let mask := Torch.lt g low in
  g ←? Torch.setitem g mask low;
  let mask := Torch.gt g high in
  Torch.setitem g mask high.

(** The loops of [clip] on one parameter: only the parameters whose
    gradient is not [None] are visited. *)
Definition clip_param (low high : float) (p : Torch.Param)
  : result Torch.Param :=
  match Torch.grad p with
  | None => Ok p
  | Some g =>
      g ←? clip_grad low high g;
      Ok (Torch.mk_param (Torch.data p) (Some g))
  end.

Definition clip_group (low high : float) (g : Torch.ParamGroup)
  : result Torch.ParamGroup :=
  params ←? for_each (clip_param low high) (Torch.params g);
  Ok (Torch.mk_group params (Torch.lr g)).

(** [clip]. *)
Definition clip (self : t) : result t :=
  low ←? attr (clip_low self);
  high ←? attr (clip_high self);
  groups ←? for_each (clip_group low high) (Torch.param_groups (opt self));
  Ok (with_opt self (Torch.mk_opt groups (Torch.inner (opt self)))).

(** The loop of [step]: [param_group["lr"] = lr * self.coef[i]] for the
    groups from index [i] on. *)
Fixpoint set_lrs (lr : float) (coef : list float)
    (groups : list Torch.ParamGroup) (i : nat)
  : result (list Torch.ParamGroup) :=
  match groups with
  | [] => Ok []
  | param_group :: rest =>
      c ←? getitem coef i;
      rest' ←? set_lrs lr coef rest (Datatypes.S i);
      Ok (Torch.mk_group (Torch.params param_group) (lr * c)%float :: rest')
  end.

(** [step(epoch)]: returns the base rate and the wrapper after the call. *)
Definition step (self : t) (epoch : Z) : result (float * t) :=
  self ←? (if clip_grads self then clip self else Ok self);
  lr ←? StepLR.call (lr_func self) epoch;
  groups ←? set_lrs lr (coef self) (Torch.param_groups (opt self)) 0;
  let o := Torch.step (Torch.mk_opt groups (Torch.inner (opt self))) in
  Ok (lr, with_opt self o).

(** [state_dict] and [load_state_dict]. *)
Record state := mk_state {
  st_lr_func : StepLR.state;
  st_coef : list float;
  st_opt_state : D
}.

Definition state_dict (self : t) : state :=
  mk_state (StepLR.state_dict (lr_func self)) (coef self)
           (Torch.state_dict (opt self)).

Definition load_state_dict (self : t) (opt_state : D) : result t :=
  o ←? Torch.load_state_dict (opt self) opt_state;
  Ok (with_opt self o).






(** The gradient tensors held by parameter groups, and by the wrapper. *)
Definition grads_of (groups : list Torch.ParamGroup) : list Torch.Tensor :=
  g ← groups;
  p ← Torch.params g;
  option_list (Torch.grad p).

Definition grads (self : t) : list Torch.Tensor :=
  grads_of (Torch.param_groups (opt self)).

(** Every element of every gradient held by the wrapper. *)
Definition grad_elements (self : t) : list float :=
  g ← grads self; Torch.elems g.


(** The parameter groups with the rate of group [i] set to
    [rate * coef[i]]. *)
Definition scaled (rate : float) (coef : list float)
    (groups : list Torch.ParamGroup) : list Torch.ParamGroup :=
  zip_with (λ g c, Torch.mk_group (Torch.params g) (rate * c)%float)
           groups coef.

End with_backend.

Arguments t S : clear implicits.
Arguments state D : clear implicits.

(** The parameter groups [__init__] hands to the underlying optimizer. *)
Definition initial_groups (params : params_arg) : list Torch.ParamGroup :=
  map (λ param, Torch.mk_group param 0%float)
      (match params with
       | Single p => [p]
       | Many ps => ps
       end).

End Optimizer.

(** ** A reference backend

    Plain gradient descent, counting its steps: the simplest instance of
    the library interface, used to run the wrapper on concrete inputs.
    Like the library's constructors it refuses an empty list of groups. *)

Module Descent.

Definition new (groups : list Torch.ParamGroup) : result nat :=
  match groups with
  | [] => Raise ValueError
  | _ => Ok 0
  end.

Definition descend (lr : float) (p : Torch.Param) : Torch.Param :=
  match Torch.grad p with
  | None => p
  | Some g =>
      let d := Torch.dtype (Torch.data p) in
      Torch.mk_param
        (Torch.mk_tensor d
           (zip_with (λ x dx, Dtype.cast d (x - lr * dx)%float)
                     (Torch.elems (Torch.data p)) (Torch.elems g)))
        (Torch.grad p)
  end.

Definition step (o : Torch.optimizer nat) : Torch.optimizer nat :=
  Torch.mk_opt
    (map (λ g, Torch.mk_group (map (descend (Torch.lr g)) (Torch.params g))
                             (Torch.lr g))
         (Torch.param_groups o))
    (S (Torch.inner o)).

Definition zero_grad (o : Torch.optimizer nat) : Torch.optimizer nat :=
  Torch.mk_opt
    (map (λ g, Torch.mk_group
                 (map (λ p, Torch.mk_param (Torch.data p) None) (Torch.params g))
                 (Torch.lr g))
         (Torch.param_groups o))
    (Torch.inner o).

#[global] Instance backend : Torch.Backend nat nat := {|
  Torch.adam_state groups _ := new groups;
  Torch.sgd_state groups _ _ := new groups;
  Torch.step := step;
  Torch.zero_grad := zero_grad;
  Torch.state_dict o := Torch.inner o;
  Torch.load_state_dict o d := Ok (Torch.mk_opt (Torch.param_groups o) d)
|}.

(** A wrapper over one group holding one parameter whose gradient, in
    single precision, has the elements [g], clipping into [[-1, 1]]. *)
Definition clipping (g : list float) : Optimizer.t nat :=
  Optimizer.mk [1%float]
    (Torch.mk_opt
       [Torch.mk_group
          [Torch.mk_param (Torch.tensor [0%float]) (Some (Torch.tensor g))]
          0%float] 0)
    StepLR.default true (Some (-1)%float) (Some 1%float).

(** The same wrapper as [__init__] leaves it: clipping disabled, no
    bounds. *)
Definition plain (g : list float) : Optimizer.t nat :=
  Optimizer.mk [1%float]
    (Torch.mk_opt
       [Torch.mk_group
          [Torch.mk_param (Torch.tensor [0%float]) (Some (Torch.tensor g))]
          0%float] 0)
    StepLR.default false None None.

End Descent.

(** ** [to_long]

    The function mutates dictionaries in place and builds new lists, so
    its argument is a reference into a store of objects.  A store is the
    list of the objects allocated so far and a reference is a position in
    it. *)

Module ToLong.

#[local] Set Warnings "-register-all".

Inductive int_dtype := Int8 | Int16 | Int32 | Int64.

Inductive tensor :=
  | IntTensor (dtype : int_dtype) (elems : list Z)
  | FloatTensor (elems : list float).

Inductive obj :=
  | ODict (items : list (string * nat))
  | OList (items : list nat)
  | OTuple (items : list nat)
  | OTensor (t : tensor)
  | OOther (tag : string).

(** [d[key]] and [d[key] = v] on the items of a dictionary, kept in
    insertion order. *)
Fixpoint dict_get (items : list (string * nat)) (key : string) : result nat :=
  match items with
  | [] => Raise KeyError
  | (k, v) :: rest => if String.eqb k key then Ok v else dict_get rest key
  end.

Fixpoint dict_set (items : list (string * nat)) (key : string) (v : nat)
  : list (string * nat) :=
  match items with
  | [] => [(key, v)]
  | (k, x) :: rest =>
      if String.eqb k key then (k, v) :: rest
      else (k, x) :: dict_set rest key v
  end.

(** A new object: it is put at the end of the store. *)
Definition alloc (h : list obj) (o : obj) : list obj * nat :=
  (h ++ [o], length h).

(** [for key in data.keys(): data[key] = to_long(data[key])], for the
    dictionary at [data]; [rec] is the recursive call. *)
Fixpoint dict_loop (rec : list obj → nat → result (list obj * nat))
    (keys : list string) (data : nat) (h : list obj) : result (list obj) :=
  match keys with
  | [] => Ok h
  | key :: rest =>
      match h !! data with
      | Some (ODict items) =>
          v ←? dict_get items key;
          rbind (rec h v) (λ '(h, v'),
            match h !! data with
            | Some (ODict items) =>
                dict_loop rec rest data (<[data := ODict (dict_set items key v')]> h)
            | _ => Raise TypeError
            end)
      | _ => Raise TypeError
      end
  end.

(** [[to_long(x) for x in data]]: the store after the calls and the items
    of the new list. *)
Fixpoint list_loop (rec : list obj → nat → result (list obj * nat))
    (items : list nat) (h : list obj) : result (list obj * list nat) :=
  match items with
  | [] => Ok (h, [])
  | x :: rest =>
      rbind (rec h x) (λ '(h, x'),
        rbind (list_loop rec rest h) (λ '(h, rest'), Ok (h, x' :: rest')))
  end.

(** [to_long(data)]: the store when it returns and the reference it
    returns.  The three [if]s of the source are tried one after the other
    on the current value of [data]; [fuel] bounds the depth of the
    recursion. *)
Fixpoint to_long (fuel : nat) (h : list obj) (data : nat)
  : result (list obj * nat) :=
  match fuel with
  | 0 => Raise RecursionError
  | S fuel =>
      rbind
        (match h !! data with
         | Some (ODict items) =>
             h ←? dict_loop (to_long fuel) items.*1 data h;
             Ok (h, data)
         | _ => Ok (h, data)
         end)
        (λ '(h, data),
          rbind
            (match h !! data with
             | Some (OList items) | Some (OTuple items) =>
                 rbind (list_loop (to_long fuel) items h)
                       (λ '(h, items'), Ok (alloc h (OList items')))
             | _ => Ok (h, data)
             end)
            (λ '(h, data),
              match h !! data with
              | Some (OTensor (IntTensor Int16 elems)) =>
                  Ok (alloc h (OTensor (IntTensor Int64 elems)))
              | _ => Ok (h, data)
              end))
  end.

(** *** Nested containers as values *)

Inductive tree :=
  | TDict (items : list (string * tree))
  | TList (items : list tree)
  | TTuple (items : list tree)
  | TTensor (t : tensor)
  | TOther (tag : string).

(** The reference [l] holds the nested container [t] in the store [h]. *)
Inductive repr (h : list obj) : nat → tree → Prop :=
  | repr_dict l items titems :
      h !! l = Some (ODict items) →
      Forall2 (λ kv kt, kv.1 = kt.1 ∧ repr h kv.2 kt.2) items titems →
      NoDup titems.*1 →
      repr h l (TDict titems)
  | repr_list l items titems :
      h !! l = Some (OList items) →
      Forall2 (repr h) items titems →
      repr h l (TList titems)
  | repr_tuple l items titems :
      h !! l = Some (OTuple items) →
      Forall2 (repr h) items titems →
      repr h l (TTuple titems)
  | repr_tensor l t :
      h !! l = Some (OTensor t) →
      repr h l (TTensor t)
  | repr_other l tag :
      h !! l = Some (OOther tag) →
      repr h l (TOther tag).

(** The number of nodes of a nested container. *)
Fixpoint tsize (t : tree) : nat :=
  match t with
  | TDict items =>
      S ((fix go (items : list (string * tree)) : nat :=
            match items with
            | [] => 0
            | (_, t) :: rest => tsize t + go rest
            end) items)
  | TList items | TTuple items =>
      S ((fix go (items : list tree) : nat :=
            match items with
            | [] => 0
            | t :: rest => tsize t + go rest
            end) items)
  | TTensor _ | TOther _ => 1
  end.

(** What [to_long] is to compute: every 16-bit integer tensor widened to
    64 bits, with the same elements, inside the same containers. *)
Definition widen (t : tensor) : tensor :=
  match t with
  | IntTensor Int16 elems => IntTensor Int64 elems
  | _ => t
  end.

Fixpoint convert (t : tree) : tree :=
  match t with
  | TDict items => TDict (map (λ '(k, t), (k, convert t)) items)
  | TList items | TTuple items => TList (map convert items)
  | TTensor t => TTensor (widen t)
  | TOther tag => TOther tag
  end.

(** The shape of a nested container: mappings with their keys, sequences
    with their length, leaves. *)
Inductive shape :=
  | SMapping (items : list (string * shape))
  | SSequence (items : list shape)
  | SLeaf.

Fixpoint shape_of (t : tree) : shape :=
  match t with
  | TDict items => SMapping (map (λ '(k, t), (k, shape_of t)) items)
  | TList items | TTuple items => SSequence (map shape_of items)
  | TTensor _ | TOther _ => SLeaf
  end.

(** The leaves of a nested container, from left to right. *)
Fixpoint leaves (t : tree) : list tree :=
  match t with
  | TDict items => flat_map (λ '(_, t), leaves t) items
  | TList items | TTuple items => flat_map leaves items
  | TTensor _ | TOther _ => [t]
  end.

(** What [to_long] does to a leaf. *)
Definition convert_leaf (t : tree) : tree :=
  match t with
  | TTensor t => TTensor (widen t)
  | _ => t
  end.

(** *** The store while [to_long] runs

    [evolves t t']: [t'] is [t] in which some parts have already been
    converted.  This is all that running [to_long] elsewhere can do to the
    container a reference holds. *)
Inductive evolves : tree → tree → Prop :=
  | ev_convert t : evolves t (convert t)
  | ev_dict items items' :
      Forall2 (λ kt kt', kt.1 = kt'.1 ∧ evolves kt.2 kt'.2) items items' →
      evolves (TDict items) (TDict items')
  | ev_list items items' :
      Forall2 evolves items items' →
      evolves (TList items) (TList items')
  | ev_tuple items items' :
      Forall2 evolves items items' →
      evolves (TTuple items) (TTuple items')
  | ev_tensor t : evolves (TTensor t) (TTensor t)
  | ev_other tag : evolves (TOther tag) (TOther tag).

(** What an object may become: a dictionary keeps its keys, any other
    object is never written to. *)
Definition obj_kept (o o' : obj) : Prop :=
  match o with
  | ODict items => ∃ items', o' = ODict items' ∧ items'.*1 = items.*1
  | _ => o' = o
  end.

(** [h'] is a store that [h] may have become. *)
Definition heap_le (h h' : list obj) : Prop :=
  length h ≤ length h' ∧
  (∀ l o, h !! l = Some o → ∃ o', h' !! l = Some o' ∧ obj_kept o o') ∧
  (∀ l t, repr h l t → ∃ t', repr h' l t' ∧ evolves t t').

(** The reference [to_long] returns, called on [l] in the store [h]: the
    dictionary itself, a new object for a list, a tuple or a 16-bit integer
    tensor, and otherwise the argument, the store being as it was. *)
Definition returned (h : list obj) (l : nat) (h' : list obj) (l' : nat) : Prop :=
  match h !! l with
  | Some (ODict _) => l' = l
  | Some (OList _) | Some (OTuple _) =>
      h !! l' = None ∧ ∃ items', h' !! l' = Some (OList items')
  | Some (OTensor (IntTensor Int16 elems)) =>
      h !! l' = None ∧ h' = h ++ [OTensor (IntTensor Int64 elems)]
  | _ => l' = l ∧ h' = h
  end.

(** [to_long] with [fuel] does what it should on every container of at
    most [fuel] nodes. *)
Definition rec_ok (fuel : nat) : Prop :=
  ∀ h l t, tsize t ≤ fuel → repr h l t →
    ∃ h' l', to_long fuel h l = Ok (h', l') ∧
             repr h' l' (convert t) ∧
             heap_le h h' ∧
             returned h l h' l'.

(** A store to run [to_long] on: at 0 the dictionary
    [{"a": int16 [1, 2], "b": (int16 [1, 2], float [1.0])}], the tuple
    sharing the tensor of ["a"]. *)
Definition sample : list obj :=
  [ ODict [("a", 1); ("b", 2)];
    OTensor (IntTensor Int16 [1; 2]%Z);
    OTuple [1; 3];
    OTensor (FloatTensor [1%float]) ].

Definition sample_tree : tree :=
  TDict [("a", TTensor (IntTensor Int16 [1; 2]%Z));
         ("b", TTuple [TTensor (IntTensor Int16 [1; 2]%Z);
                       TTensor (FloatTensor [1%float])])].

End ToLong.

(** ** [merge_dict] *)

Module MergeDict.
Section merge_dict.
Context {K : Type} `{Countable K} {V : Type}.

(** The two dictionaries the function works on. *)
Record locals := mk { ds : gmap K V; dt : gmap K V }.

(** [dt[key] = ds[key]]. *)
Definition body (key : K) (st : locals) : result locals :=
  match ds st !! key with
  | None => Raise KeyError
  | Some value => Ok (mk (ds st) (<[key := value]> (dt st)))
  end.

(** [for key in ds: ...] over the keys in the order [keys]. *)
Fixpoint loop (keys : list K) (st : locals) : result locals :=
  match keys with
  | [] => Ok st
  | key :: rest => st ←? body key st; loop rest st
  end.

(** The dictionaries when the function returns. *)
Definition run (ds dt : gmap K V) : result locals :=
  loop (map_to_list ds).*1 (mk ds dt).

(** The target after [merge_dict(ds, dt)]; the function itself returns
    nothing. *)
Definition merge_dict (source target : gmap K V) : result (gmap K V) :=
  st ←? run source target; Ok (dt st).

End merge_dict.
End MergeDict.

(** ** [gpu]

    The function builds new containers and never writes to the ones it is
    given, so nested containers are plain values here.  A tensor carries
    the device it lives on and whether its memory is contiguous. *)

Module Gpu.

#[local] Set Warnings "-register-all".

Inductive device := Cpu | Cuda.

Record tensor := mk_tensor {
  dev : device;
  is_contiguous : bool;
  payload : ToLong.tensor
}.

Inductive value :=
  | VList (items : list value)
  | VTuple (items : list value)
  | VDict (items : list (string * value))
  | VTensor (t : tensor)
  | VOther (tag : string).

(** [t.contiguous()] and [t.cuda(non_blocking=True)]. *)
Definition contiguous (t : tensor) : tensor :=
  mk_tensor (dev t) true (payload t).
Definition cuda (t : tensor) : tensor :=
  mk_tensor Cuda (is_contiguous t) (payload t).

Fixpoint gpu (data : value) : value :=
  match data with
  | VList items | VTuple items => VList (map gpu items)
  | VDict items => VDict (map (λ '(key, _data), (key, gpu _data)) items)
  | VTensor t => VTensor (cuda (contiguous t))
  | VOther tag => VOther tag
  end.

Fixpoint shape_of (data : value) : ToLong.shape :=
  match data with
  | VList items | VTuple items => ToLong.SSequence (map shape_of items)
  | VDict items => ToLong.SMapping (map (λ '(k, x), (k, shape_of x)) items)
  | VTensor _ | VOther _ => ToLong.SLeaf
  end.

(** The leaves of a nested container, from left to right. *)
Fixpoint leaves (data : value) : list value :=
  match data with
  | VList items | VTuple items => flat_map leaves items
  | VDict items => flat_map (λ '(_, x), leaves x) items
  | VTensor _ | VOther _ => [data]
  end.

(** What [gpu] does to a leaf. *)
Definition gpu_leaf (leaf : value) : value :=
  match leaf with
  | VTensor t => VTensor (mk_tensor Cuda true (payload t))
  | _ => leaf
  end.

(** No tuple occurs in [data]. *)
Fixpoint tuple_free (data : value) : bool :=
  match data with
  | VList items => forallb tuple_free items
  | VTuple _ => false
  | VDict items => forallb (λ '(_, x), tuple_free x) items
  | VTensor _ | VOther _ => true
  end.

End Gpu.

(** ** [Logger] *)

Module Logger.

(** The text handed to the console so far, and the log file opened for
    appending: what has reached the file and what is still buffered. *)
Record t := mk {
  terminal : string;
  log_contents : string;
  log_buffer : string
}.

(** [__init__]: [open(log, "a")] on a file holding [existing], the console
    having received [console] so far. *)
Definition init (console existing : string) : t :=
  mk console existing "".

(** [write(message)]: [terminal.write], [log.write], [log.flush]. *)
Definition write (self : t) (message : string) : t :=
  let terminal := (terminal self ++ message)%string in
  let log_buffer := (log_buffer self ++ message)%string in
  mk terminal (log_contents self ++ log_buffer)%string "".

(** [flush()]: [pass]. *)
Definition flush (self : t) : t := self.

(** A use of the logger. *)
Inductive op :=
  | Write (message : string)
  | Flush.

Definition apply (self : t) (o : op) : t :=
  match o with
  | Write message => write self message
  | Flush => flush self
  end.

Definition run (self : t) (ops : list op) : t := foldl apply self ops.

(** The text the writes among [ops] carry. *)
Fixpoint written (ops : list op) : string :=
  match ops with
  | [] => ""
  | Write message :: rest => (message ++ written rest)%string
  | Flush :: rest => written rest
  end.

(** [ops] without its [flush] calls. *)
Fixpoint writes (ops : list op) : list op :=
  match ops with
  | [] => []
  | Write message :: rest => Write message :: writes rest
  | Flush :: rest => writes rest
  end.

End Logger.

(** ** The two passes of [clip] on one gradient element *)

Definition two_pass (low high x : float) : float :=
  let y := if (x <? low)%float then low else x in
  if F.gtb y high then high else y.

(** The wrapper with [f d] applied to every element of every gradient of
    element type [d]. *)
Definition map_tensor (f : Dtype.t → float → float) (g : Torch.Tensor)
  : Torch.Tensor :=
  Torch.mk_tensor (Torch.dtype g) (map (f (Torch.dtype g)) (Torch.elems g)).

Definition map_grads {S : Type} (f : Dtype.t → float → float)
    (self : Optimizer.t S) : Optimizer.t S :=
  Optimizer.mk (Optimizer.coef self)
    (Torch.mk_opt
       (map (λ g, Torch.mk_group
                    (map (λ p, Torch.mk_param (Torch.data p)
                                              (map_tensor f <$> Torch.grad p))
                         (Torch.params g))
                    (Torch.lr g))
            (Torch.param_groups (Optimizer.opt self)))
       (Torch.inner (Optimizer.opt self)))
    (Optimizer.lr_func self) (Optimizer.clip_grads self)
    (Optimizer.clip_low self) (Optimizer.clip_high self).

(** The bounds can be stored in the gradient [g], and are the wrong way
    round there. *)
Definition inverted (low high : float) (g : Torch.Tensor) : bool :=
  negb (Dtype.overflows (Torch.dtype g) low)
  && negb (Dtype.overflows (Torch.dtype g) high)
  && (Dtype.cast (Torch.dtype g) high <? Dtype.cast (Torch.dtype g) low)%float.

(** The parameter [p'] is [p] with, at most, other elements in its
    gradient. *)
Definition same_but_grad_elems (p p' : Torch.Param) : Prop :=
  Torch.data p' = Torch.data p ∧
  match Torch.grad p, Torch.grad p' with
  | None, None => True
  | Some g, Some g' =>
      Torch.dtype g' = Torch.dtype g ∧
      length (Torch.elems g') = length (Torch.elems g)
  | _, _ => False
  end.

(** ** Driving the optimizer wrapper *)

Module Training.
Section training.
Context {S D : Type} {backend : Torch.Backend S D}.

(** [step] called once per epoch of [epochs], in order: the rates it
    returned and the wrapper at the end. *)
Fixpoint steps (self : Optimizer.t S) (epochs : list Z)
  : result (list float * Optimizer.t S) :=
  match epochs with
  | [] => Ok ([], self)
  | epoch :: rest =>
      rbind (Optimizer.step self epoch) (λ '(lr, self),
        rbind (steps self rest) (λ '(lrs, self), Ok (lr :: lrs, self)))
  end.

(** The underlying optimizer keeps its number of parameter groups when it
    steps. *)
Definition keeps_groups : Prop :=
  ∀ o : Torch.optimizer S,
    length (Torch.param_groups (Torch.step o))
    = length (Torch.param_groups o).

(** The state [__init__] sets up, up to the underlying optimizer. *)
Definition fresh (self : Optimizer.t S) : Prop :=
  Optimizer.coef self
    = replicate (length (Torch.param_groups (Optimizer.opt self))) 1%float ∧
  Optimizer.lr_func self = StepLR.default ∧
  Optimizer.clip_grads self = false ∧
  Optimizer.clip_low self = None ∧
  Optimizer.clip_high self = None.

(** The rate of the built-in schedule at [epoch]. *)
Definition default_rate (epoch : Z) : float :=
  if (epoch <? 32)%Z then StepLR.rate_hi else StepLR.rate_lo.

End training.
End Training.

(** ** [rotate]

    The function is a handful of tensor operations on floating-point
    numbers.  An arithmetic operation on elements of type [d] is the
    binary64 operation rounded to [d]; the matrix product is the sum of the
    two products of a row, in that order, without fused operations.
    [torch.sin] and [torch.cos] are the platform's: all that is used of
    them is that they are exact at zero. *)

Module Rotate.

Class Trig := {
  sin : Dtype.t → float → float;
  cos : Dtype.t → float → float;
  sin_zero d x : is_zero x = true → sin d x = x;
  cos_zero d x : is_zero x = true → cos d x = 1%float
}.

(** A tensor of shape (N, 2): its element type and its rows. *)
Record Points := mk_points { dtype : Dtype.t; rows : list (float * float) }.

Definition mul (d : Dtype.t) (a b : float) : float := Dtype.cast d (a * b).
Definition add (d : Dtype.t) (a b : float) : float := Dtype.cast d (a + b).

(** [-t]. *)
Definition neg (t : Torch.Tensor) : Torch.Tensor :=
  Torch.mk_tensor (Torch.dtype t) (map PrimFloat.opp (Torch.elems t)).

(** A batch of 2x2 matrices, as rows of rows. *)
Definition matrix : Type := (float * float) * (float * float).

(** [rot_mat[:, i, j] = v] for [rot_mat] of element type [d] holding [n]
    matrices: the values are converted to [d]; they must be as many as the
    matrices, or a single one, which is broadcast. *)
Definition assign (d : Dtype.t) (n : nat) (v : Torch.Tensor)
  : result (list float) :=
  let v := map (Dtype.convert (Torch.dtype v) d) (Torch.elems v) in
  if (length v =? n)%nat then Ok v
  else match v with
       | [x] => Ok (replicate n x)
       | _ => Raise RuntimeError
       end.

(** [torch.matmul(rot_mat, xy.unsqueeze(2)).view(len(xy), 2)], the batch
    sizes being equal. *)
Definition matmul (d : Dtype.t) (rot_mat : list matrix)
    (xy : list (float * float)) : list (float * float) :=
  zip_with (λ '((m00, m01), (m10, m11)) '(x, y),
              (add d (mul d m00 x) (mul d m01 y),
               add d (mul d m10 x) (mul d m11 y)))
           rot_mat xy.

Definition rotate `{Trig} (xy : Points) (theta : Torch.Tensor)
  : result Points :=
  let st := Torch.mk_tensor (Torch.dtype theta)
              (map (sin (Torch.dtype theta)) (Torch.elems theta)) in
  let ct := Torch.mk_tensor (Torch.dtype theta)
              (map (cos (Torch.dtype theta)) (Torch.elems theta)) in
  let d := dtype xy in
  let n := length (rows xy) in
  c00 ←? assign d n ct;
  c01 ←? assign d n (neg st);
  c10 ←? assign d n st;
  c11 ←? assign d n ct;
  let rot_mat :=
    zip_with (λ '(a, b) '(c, d), ((a, b), (c, d)))
             (zip c00 c01) (zip c10 c11) in
  Ok (mk_points d (matmul d rot_mat (rows xy))).

(** The rotation matrix of one angle of a tensor of element type [dθ], as a
    matrix of element type [d]: [[cos θ, -sin θ], [sin θ, cos θ]]. *)
Definition rotation `{Trig} (dθ d : Dtype.t) (angle : float) : matrix :=
  ((Dtype.convert dθ d (cos dθ angle), Dtype.convert dθ d (- sin dθ angle)),
   (Dtype.convert dθ d (sin dθ angle), Dtype.convert dθ d (cos dθ angle)))%float.

(** A 2x2 matrix applied to a point, in the arithmetic of the element type
    [d]. *)
Definition apply (d : Dtype.t) (m : matrix) (p : float * float)
  : float * float :=
  (Dtype.cast d (Dtype.cast d (fst (fst m) * fst p)
                 + Dtype.cast d (snd (fst m) * snd p)),
   Dtype.cast d (Dtype.cast d (fst (snd m) * fst p)
                 + Dtype.cast d (snd (snd m) * snd p)))%float.


(** The first-order approximations of sine and cosine, exact at zero: an
    instance to run the function at the angle zero. *)
#[global] Instance small_angle : Trig := {|
  sin _ x := x;
  cos _ _ := 1%float;
  sin_zero _ _ _ := eq_refl;
  cos_zero _ _ _ := eq_refl
|}.

End Rotate.

(** * Properties *)

Lemma getitem_Ok {A} (l : list A) i x : getitem l i = Ok x ↔ l !! i = Some x.
Proof. unfold getitem. destruct (l !! i); split; congruence. Qed.

(** ** The schedule *)

Lemma StepLR_scan_bounds epoch ths idx :
  idx ≤ StepLR.scan epoch ths idx ≤ idx + length ths.
Proof.
  revert idx. induction ths as [|th ths IH]; intros idx; simpl; [lia|].
  destruct (epoch <? th)%Z; [lia|]. specialize (IH (S idx)). lia.
Qed.

Lemma StepLR_scan_shift epoch ths idx :
  StepLR.scan epoch ths idx = idx + StepLR.scan epoch ths 0.
Proof.
  revert idx. induction ths as [|th ths IH]; intros idx; simpl; [lia|].
  destruct (epoch <? th)%Z; [lia|].
  rewrite (IH (S idx)), (IH 1). lia.
Qed.

Lemma StepLR_scan_first_above epoch ths :
  StepLR.first_above epoch ths (StepLR.scan epoch ths 0).
Proof.
  induction ths as [|th ths [IHlo IHhi]]; simpl.
  - split; [intros j ? Hj; lia | by left].
  - destruct (epoch <? th)%Z eqn:Hlt.
    + split; [intros j ? Hj; lia|]. right. exists th. split; [done|].
      by apply Z.ltb_lt.
    + apply Z.ltb_ge in Hlt. rewrite StepLR_scan_shift. split.
      * intros [|j] t' Hj Hlook; simpl in *; [congruence|].
        apply (IHlo j); [lia|done].
      * destruct IHhi as [->|(t' & Hlook & Hlt')]; [by left|].
        right. by exists t'.
Qed.

(** The index is unique: the description determines what the loop
    computes. *)
Lemma StepLR_first_above_unique epoch ths i j :
  StepLR.first_above epoch ths i → StepLR.first_above epoch ths j → i = j.
Proof.
  intros [Hi1 Hi2] [Hj1 Hj2].
  destruct (Nat.lt_trichotomy i j) as [Hlt|[->|Hlt]]; [|done|]; exfalso.
  - destruct Hi2 as [->|(th & Hth & Hep)].
    + destruct Hj2 as [->|(th & Hth & _)]; [lia|].
      apply lookup_lt_Some in Hth. lia.
    + specialize (Hj1 i th Hlt Hth). lia.
  - destruct Hj2 as [->|(th & Hth & Hep)].
    + destruct Hi2 as [->|(th & Hth & _)]; [lia|].
      apply lookup_lt_Some in Hth. lia.
    + specialize (Hi1 j th Hlt Hth). lia.
Qed.

Lemma StepLR_init_Ok rates thresholds self :
  StepLR.init rates thresholds = Ok self ↔
  length rates = length thresholds + 1 ∧ self = StepLR.mk rates thresholds.
Proof.
  unfold StepLR.init. destruct (Z.eqb_spec
    (Z.of_nat (length rates) - Z.of_nat (length thresholds)) 1) as [He|He].
  - split; [intros [= <-]; split; [lia|done] | by intros [_ ->]].
  - split; [done | intros [Hlen _]; lia].
Qed.

Lemma StepLR_call_Ok self epoch :
  length (StepLR.lr self) = length (StepLR.lr_epochs self) + 1 →
  ∃ rate, StepLR.call self epoch = Ok rate ∧
          StepLR.lr self !! StepLR.scan epoch (StepLR.lr_epochs self) 0
            = Some rate.
Proof.
  intros Hlen.
  pose proof (StepLR_scan_bounds epoch (StepLR.lr_epochs self) 0) as Hb.
  destruct (lookup_lt_is_Some_2 (StepLR.lr self)
              (StepLR.scan epoch (StepLR.lr_epochs self) 0))
    as [rate Hrate]; [lia|].
  exists rate. split; [|done]. unfold StepLR.call. by apply getitem_Ok.
Qed.

(** C1: a schedule built from [rates] and [thresholds] with
    [len(rates) = len(thresholds) + 1] returns, at every epoch,
    [rates[idx]] for the smallest [idx] with [epoch < thresholds[idx]], or
    for [idx = len(thresholds)] when no threshold is above the epoch; with
    rates [1e-3, 1e-4] and threshold [32] it returns [1e-3] at epochs 0 and
    31 and [1e-4] at epochs 32 and 1000. *)
Theorem StepLR_call_first_above :
  (∀ rates thresholds self epoch,
      length rates = length thresholds + 1 →
      StepLR.init rates thresholds = Ok self →
      ∃ idx rate,
        StepLR.call self epoch = Ok rate ∧
        rates !! idx = Some rate ∧
        StepLR.first_above epoch thresholds idx) ∧
  (∃ self,
      StepLR.init [StepLR.rate_hi; StepLR.rate_lo] [32%Z] = Ok self ∧
      StepLR.call self 0 = Ok StepLR.rate_hi ∧
      StepLR.call self 31 = Ok StepLR.rate_hi ∧
      StepLR.call self 32 = Ok StepLR.rate_lo ∧
      StepLR.call self 1000 = Ok StepLR.rate_lo).
Proof.
  split.
  - intros rates thresholds self epoch Hlen [_ ->]%StepLR_init_Ok.
    destruct (StepLR_call_Ok (StepLR.mk rates thresholds) epoch Hlen)
      as (rate & Hcall & Hrate).
    exists (StepLR.scan epoch thresholds 0), rate. split_and!; [done..|].
    apply StepLR_scan_first_above.
  - exists StepLR.default. by split_and!.
Qed.

Lemma StepLR_call_first_above_witness :
  length [StepLR.rate_hi; StepLR.rate_lo] = length [32%Z] + 1 ∧
  StepLR.init [StepLR.rate_hi; StepLR.rate_lo] [32%Z] = Ok StepLR.default ∧
  ∃ idx rate,
    StepLR.call StepLR.default 40 = Ok rate ∧
    [StepLR.rate_hi; StepLR.rate_lo] !! idx = Some rate ∧
    StepLR.first_above 40 [32%Z] idx.
Proof.
  split; [reflexivity|]. split; [reflexivity|].
  apply (proj1 StepLR_call_first_above
           [StepLR.rate_hi; StepLR.rate_lo] [32%Z] StepLR.default 40%Z);
    reflexivity.
Defined.

(** C7: constructing a schedule raises (the assertion fails) whenever
    [len(rates) ≠ len(thresholds) + 1] and succeeds whenever
    [len(rates) = len(thresholds) + 1]. *)
Theorem StepLR_init_checks_lengths (rates : list float) (thresholds : list Z) :
  (length rates ≠ length thresholds + 1 →
   StepLR.init rates thresholds = Raise AssertionError) ∧
  (length rates = length thresholds + 1 →
   StepLR.init rates thresholds = Ok (StepLR.mk rates thresholds)).
Proof.
  unfold StepLR.init.
  destruct (Z.eqb_spec
    (Z.of_nat (length rates) - Z.of_nat (length thresholds)) 1) as [He|He];
    split; intros Hlen; try done; lia.
Qed.

Lemma StepLR_init_checks_lengths_witness :
  (length [StepLR.rate_hi] ≠ length [32%Z] + 1 ∧
   StepLR.init [StepLR.rate_hi] [32%Z] = Raise AssertionError) ∧
  (length [StepLR.rate_hi; StepLR.rate_lo] = length [32%Z] + 1 ∧
   StepLR.init [StepLR.rate_hi; StepLR.rate_lo] [32%Z] = Ok StepLR.default).
Proof.
  split.
  - assert (Hne : length [StepLR.rate_hi] ≠ length [32%Z] + 1) by (simpl; lia).
    split; [exact Hne|].
    exact (proj1 (StepLR_init_checks_lengths [StepLR.rate_hi] [32%Z]) Hne).
  - split; [reflexivity|].
    exact (proj2 (StepLR_init_checks_lengths
                    [StepLR.rate_hi; StepLR.rate_lo] [32%Z]) eq_refl).
Defined.


(** ** IEEE comparisons: facts derived from their specification over
    [spec_float] *)

Lemma F_SFcompare_antisym a b :
  SFcompare b a = option_map CompOpp (SFcompare a b).
Proof.
  destruct a as [sa|sa| |sa ma ea], b as [sb|sb| |sb mb eb]; simpl;
    try reflexivity; try (destruct sa; reflexivity);
    try (destruct sb; reflexivity); try (destruct sa, sb; reflexivity).
  destruct sa, sb; simpl; try reflexivity; f_equal;
    rewrite (Z.compare_antisym ea eb); destruct (ea ?= eb)%Z; simpl;
    try reflexivity.
  - rewrite CompOpp_involutive. apply (Pos.compare_cont_antisym mb ma Eq).
  - symmetry. apply (Pos.compare_cont_antisym ma mb Eq).
Qed.

Lemma F_SFcompare_None a b :
  SFcompare a b = None ↔ a = S754_nan ∨ b = S754_nan.
Proof.
  destruct a as [sa|sa| |sa ma ea], b as [sb|sb| |sb mb eb]; simpl;
    split; try done; try (intros [?|?]; done); auto.
Qed.

Lemma F_SFcompare_refl a : a ≠ S754_nan → SFcompare a a = Some Eq.
Proof.
  destruct a as [sa|sa| |sa ma ea]; simpl; try done.
  - by destruct sa.
  - intros _. f_equal. rewrite Z.compare_refl.
    assert (PosDef.Pos.compare_cont Eq ma ma = Eq) as ->
      by apply (Pos.compare_cont_refl ma Eq).
    by destruct sa.
Qed.

Lemma F_is_nan_spec x : is_nan x = true ↔ Prim2SF x = S754_nan.
Proof.
  unfold is_nan. rewrite FloatAxioms.eqb_spec. unfold SFeqb. split.
  - intros Hn. destruct (Prim2SF x) as [s|s| |s m e] eqn:Hx; [| |done|];
      rewrite F_SFcompare_refl in Hn by done; done.
  - by intros ->.
Qed.

Lemma F_is_nan_false x : is_nan x = false ↔ Prim2SF x ≠ S754_nan.
Proof.
  rewrite <- F_is_nan_spec. destruct (is_nan x); split; done.
Qed.

Lemma F_leb_not_nan x y :
  (x <=? y)%float = true → is_nan x = false ∧ is_nan y = false.
Proof.
  rewrite FloatAxioms.leb_spec. unfold SFleb. intros Hle. rewrite !F_is_nan_false.
  split; intros Hn; rewrite Hn in Hle; simpl in Hle; [done|].
  by destruct (Prim2SF x).
Qed.

Lemma F_leb_refl x : is_nan x = false → (x <=? x)%float = true.
Proof.
  rewrite F_is_nan_false, FloatAxioms.leb_spec. unfold SFleb. intros Hn.
  by rewrite F_SFcompare_refl.
Qed.

(** [low ≤ high] excludes [high < low]. *)
Lemma F_leb_not_gtb x y : (x <=? y)%float = true → F.gtb x y = false.
Proof.
  unfold F.gtb. rewrite FloatAxioms.leb_spec, FloatAxioms.ltb_spec. unfold SFleb, SFltb.
  rewrite (F_SFcompare_antisym (Prim2SF x) (Prim2SF y)).
  by destruct (SFcompare (Prim2SF x) (Prim2SF y)) as [[]|].
Qed.

(** Two numbers that are not NaN are comparable. *)
Lemma F_not_ltb_leb x y :
  is_nan x = false → is_nan y = false →
  (x <? y)%float = false → (y <=? x)%float = true.
Proof.
  rewrite !F_is_nan_false, FloatAxioms.leb_spec, FloatAxioms.ltb_spec. unfold SFleb, SFltb.
  intros Hx Hy. rewrite (F_SFcompare_antisym (Prim2SF x) (Prim2SF y)).
  destruct (SFcompare (Prim2SF x) (Prim2SF y)) as [[]|] eqn:Hc; try done.
  apply F_SFcompare_None in Hc. by destruct Hc.
Qed.

Lemma F_ltb_nan_l x y : is_nan x = true → (x <? y)%float = false.
Proof. rewrite F_is_nan_spec, FloatAxioms.ltb_spec. unfold SFltb. by intros ->. Qed.

Lemma F_ltb_nan_r x y : is_nan y = true → (x <? y)%float = false.
Proof.
  rewrite F_is_nan_spec, FloatAxioms.ltb_spec. unfold SFltb. intros ->.
  by destruct (Prim2SF x).
Qed.

Lemma F_leb_nan_r x y : is_nan y = true → (x <=? y)%float = false.
Proof.
  intros Hn. destruct (x <=? y)%float eqn:Hle; [|done].
  apply F_leb_not_nan in Hle as [_ Hy]. congruence.
Qed.





(** ** Loops that may raise *)

Lemma for_each_Ok_map {A B} (f : A → result B) (g : A → B) (l : list A) :
  (∀ x, x ∈ l → f x = Ok (g x)) → for_each f l = Ok (map g l).
Proof.
  induction l as [|x l IH]; intros Hall; simpl; [done|].
  rewrite (Hall x) by apply list_elem_of_here. simpl.
  rewrite IH; [done|]. intros y Hy. apply Hall. by apply list_elem_of_further.
Qed.

Lemma for_each_Ok_inv {A B} (f : A → result B) (l : list A) (l' : list B) :
  for_each f l = Ok l' → Forall2 (λ x y, f x = Ok y) l l'.
Proof.
  revert l'. induction l as [|x l IH]; intros l'; simpl.
  - intros [= <-]. constructor.
  - destruct (f x) as [y|e] eqn:Hx; simpl; [|done].
    destruct (for_each f l) as [ys|e] eqn:Hl; simpl; [|done].
    intros [= <-]. constructor; [done|]. by apply IH.
Qed.

Lemma for_each_fixed {A} (f : A → result A) (l : list A) :
  Forall (λ x, f x = Ok x) l → for_each f l = Ok l.
Proof.
  induction 1 as [|x l Hx _ IH]; simpl; [done|]. by rewrite Hx, IH.
Qed.

(** ** Conversions to an element type *)

Lemma Dtype_checked_Ok d x :
  Dtype.overflows d x = false → Dtype.checked d x = Ok (Dtype.cast d x).
Proof. unfold Dtype.checked. by intros ->. Qed.

Lemma Dtype_checked_inv d x v :
  Dtype.checked d x = Ok v → Dtype.overflows d x = false ∧ v = Dtype.cast d x.
Proof.
  unfold Dtype.checked. destruct (Dtype.overflows d x); [done|].
  by intros [= <-].
Qed.

Lemma Dtype_eqb_eq a b : Dtype.eqb a b = true ↔ a = b.
Proof. by destruct a, b. Qed.

Lemma Dtype_convert_same d x : Dtype.convert d d x = x.
Proof.
  unfold Dtype.convert. by rewrite (proj2 (Dtype_eqb_eq d d) eq_refl).
Qed.

(** Single precision has 0x1.99999ap-4 for 0.1; the half-precision types
    have 0x1.998p-4 and 0x1.9ap-4; what is too large for a type becomes an
    infinity when cast, and is refused when stored. *)
Example Dtype_cast_run :
  Dtype.cast Dtype.Float32 0x1.999999999999ap-4 = 0x1.99999ap-4%float ∧
  Dtype.cast Dtype.Float16 0x1.999999999999ap-4 = 0x1.998p-4%float ∧
  Dtype.cast Dtype.BFloat16 0x1.999999999999ap-4 = 0x1.9ap-4%float ∧
  Dtype.cast Dtype.Float64 0x1.999999999999ap-4 = 0x1.999999999999ap-4%float ∧
  Dtype.cast Dtype.Float32 0x1p200 = infinity ∧
  Dtype.checked Dtype.Float32 0x1p200 = Raise RuntimeError ∧
  Dtype.checked Dtype.Float64 0x1p200 = Ok 0x1p200%float ∧
  Dtype.checked Dtype.Float16 infinity = Ok infinity.
Proof. vm_compute. done. Qed.

(** ** The optimizer wrapper *)

Section optimizer_facts.
Context {S D : Type} {backend : Torch.Backend S D}.

Lemma Optimizer_set_lrs_scaled rate coef groups i :
  i + length groups ≤ length coef →
  Optimizer.set_lrs rate coef groups i
  = Ok (Optimizer.scaled rate (drop i coef) groups).
Proof.
  revert i. induction groups as [|g groups IH]; intros i Hlen; simpl in *.
  - done.
  - destruct (lookup_lt_is_Some_2 coef i) as [c Hc]; [lia|].
    unfold getitem. rewrite Hc. simpl. rewrite IH by lia. simpl.
    by rewrite (drop_S _ _ _ Hc).
Qed.

(** What the part of [step] after the optional clipping does. *)
Lemma Optimizer_step_unclipped (self : Optimizer.t S) epoch rate :
  Optimizer.clip_grads self = false →
  StepLR.call (Optimizer.lr_func self) epoch = Ok rate →
  length (Torch.param_groups (Optimizer.opt self))
    ≤ length (Optimizer.coef self) →
  Optimizer.step self epoch
  = Ok (rate,
        Optimizer.mk (Optimizer.coef self)
          (Torch.step
             (Torch.mk_opt
                (Optimizer.scaled rate (Optimizer.coef self)
                   (Torch.param_groups (Optimizer.opt self)))
                (Torch.inner (Optimizer.opt self))))
          (Optimizer.lr_func self) (Optimizer.clip_grads self)
          (Optimizer.clip_low self) (Optimizer.clip_high self)).
Proof.
  intros Hclip Hcall Hlen.
  unfold Optimizer.step. rewrite Hclip. simpl. rewrite Hcall. simpl.
  rewrite Optimizer_set_lrs_scaled by (simpl; lia). simpl.
  unfold Optimizer.with_opt. by rewrite Hclip.
Qed.

Lemma Optimizer_scaled_length rate coef groups :
  length groups ≤ length coef →
  length (Optimizer.scaled rate coef groups) = length groups.
Proof. intros Hlen. unfold Optimizer.scaled. rewrite length_zip_with. lia. Qed.

Lemma Optimizer_init_eq params coef :
  Optimizer.init params coef
  = (st ←? Torch.adam_state (Optimizer.initial_groups params) 0%float;
     Ok (Optimizer.mk
           (replicate (length (Optimizer.initial_groups params)) 1%float)
           (Torch.mk_opt (Optimizer.initial_groups params) st)
           StepLR.default false None None)).
Proof.
  unfold Optimizer.initial_groups. destruct params as [p|ps]; simpl.
  - unfold Optimizer.init. simpl. by destruct (Torch.adam_state _ _).
  - unfold Optimizer.init. simpl. rewrite length_map.
    by destruct (Torch.adam_state _ _).
Qed.

End optimizer_facts.

(** *** Clipping *)


Lemma Torch_setitem_Ok g (test : float → bool) x :
  Dtype.overflows (Torch.dtype g) x = false →
  Torch.setitem g (map test (Torch.elems g)) x
  = Ok (Torch.mk_tensor (Torch.dtype g)
          (map (λ e, if test e then Dtype.cast (Torch.dtype g) x else e)
               (Torch.elems g))).
Proof.
  intros Hfit. unfold Torch.setitem.
  rewrite length_map, Nat.eqb_refl. simpl.
  rewrite (Dtype_checked_Ok _ _ Hfit). simpl. do 2 f_equal.
  by rewrite zip_with_fmap_r, zip_with_diag.
Qed.

Lemma Torch_setitem_inv g mask x g' :
  Torch.setitem g mask x = Ok g' →
  Dtype.overflows (Torch.dtype g) x = false ∧
  Torch.dtype g' = Torch.dtype g.
Proof.
  unfold Torch.setitem. destruct (negb _); [done|].
  destruct (Dtype.checked _ _) as [v|e] eqn:Hv; simpl; [|done].
  intros [= <-]. by apply Dtype_checked_inv in Hv as [-> _].
Qed.

(** The loop body of [clip] on one gradient: it succeeds exactly when both
    bounds can be stored, and then applies the two passes with the bounds
    converted to the element type. *)
Lemma Optimizer_clip_grad_Ok low high g :
  Dtype.overflows (Torch.dtype g) low = false →
  Dtype.overflows (Torch.dtype g) high = false →
  Optimizer.clip_grad low high g
  = Ok (map_tensor
          (λ d, two_pass (Dtype.cast d low) (Dtype.cast d high)) g).
Proof.
  intros Hlow Hhigh. unfold Optimizer.clip_grad, Torch.lt, Torch.gt.
  rewrite (Torch_setitem_Ok g _ low Hlow). cbn [rbind].
  rewrite (Torch_setitem_Ok (Torch.mk_tensor _ _) (λ e, F.gtb e _) high Hhigh).
  simpl. unfold map_tensor. do 2 f_equal. by rewrite map_map.
Qed.

Lemma Optimizer_clip_grad_inv low high g g' :
  Optimizer.clip_grad low high g = Ok g' →
  Dtype.overflows (Torch.dtype g) low = false ∧
  Dtype.overflows (Torch.dtype g) high = false.
Proof.
  unfold Optimizer.clip_grad.
  destruct (Torch.setitem g _ low) as [g1|e] eqn:H1; simpl; [|done].
  intros H2. apply Torch_setitem_inv in H1 as [Hlow Hd].
  apply Torch_setitem_inv in H2 as [Hhigh _]. by rewrite Hd in Hhigh.
Qed.

Section clip_facts.
Context {S : Type}.


Lemma Optimizer_grads_of_elem groups g :
  g ∈ Optimizer.grads_of groups ↔
  ∃ grp p, grp ∈ groups ∧ p ∈ Torch.params grp ∧ Torch.grad p = Some g.
Proof.
  unfold Optimizer.grads_of. rewrite list_elem_of_bind. split.
  - intros (grp & (p & Hg & Hp)%list_elem_of_bind & Hgrp).
    exists grp, p. split_and!; [done..|].
    destruct (Torch.grad p); simpl in Hg; [|by apply elem_of_nil in Hg].
    apply list_elem_of_singleton in Hg. by subst.
  - intros (grp & p & Hgrp & Hp & Hg). exists grp. split; [|done].
    apply list_elem_of_bind. exists p. split; [|done]. rewrite Hg. simpl.
    apply list_elem_of_here.
Qed.

(** [clip] when every bound can be stored in every gradient: the two
    passes on every element. *)
Lemma Optimizer_clip_map_grads (self : Optimizer.t S) low high :
  Optimizer.clip_low self = Some low →
  Optimizer.clip_high self = Some high →
  (∀ g, g ∈ Optimizer.grads self →
     Dtype.overflows (Torch.dtype g) low = false ∧
     Dtype.overflows (Torch.dtype g) high = false) →
  Optimizer.clip self
  = Ok (map_grads (λ d, two_pass (Dtype.cast d low) (Dtype.cast d high)) self).
Proof.
  intros Hlow Hhigh Hfit. unfold Optimizer.clip. rewrite Hlow, Hhigh. simpl.
  set (f := λ d, two_pass (Dtype.cast d low) (Dtype.cast d high)).
  set (fp := λ p, Torch.mk_param (Torch.data p) (map_tensor f <$> Torch.grad p)).
  rewrite (for_each_Ok_map (Optimizer.clip_group low high)
             (λ g, Torch.mk_group (map fp (Torch.params g)) (Torch.lr g)));
    [done|].
  intros grp Hgrp. unfold Optimizer.clip_group.
  rewrite (for_each_Ok_map (Optimizer.clip_param low high) fp); [done|].
  intros p Hp. unfold Optimizer.clip_param, fp.
  destruct (Torch.grad p) as [g|] eqn:Hg; simpl.
  - destruct (Hfit g) as [Hl Hh].
    { apply Optimizer_grads_of_elem. by exists grp, p. }
    by rewrite (Optimizer_clip_grad_Ok low high g Hl Hh).
  - destruct p. simpl in Hg. by rewrite Hg.
Qed.






End clip_facts.

Section clip_bounds.
Context {S : Type}.




End clip_bounds.



Example Optimizer_clip_run :
  Optimizer.clip (Descent.clipping [(-3)%float; 0.5%float; 7%float])
  = Ok (Descent.clipping [(-1)%float; 0.5%float; 1%float]).
Proof. vm_compute. reflexivity. Qed.

(** A bound is stored as the gradient's element type has it: in single
    precision the upper bound 0.1 becomes 0x1.99999ap-4, which is above
    0.1, while in double precision it is stored as it is. *)
Example Optimizer_clip_rounds_bounds :
  let self (g : Torch.Tensor) :=
    Optimizer.mk [1%float]
      (Torch.mk_opt
         [Torch.mk_group [Torch.mk_param (Torch.tensor [0%float]) (Some g)]
                         0%float] 0)
      StepLR.default true (Some (-1)%float) (Some 0x1.999999999999ap-4%float) in
  (clipped ←? Optimizer.clip (self (Torch.tensor [7%float]));
   Ok (Optimizer.grad_elements clipped))
  = Ok [0x1.99999ap-4%float] ∧
  (0x1.99999ap-4 <=? 0x1.999999999999ap-4)%float = false ∧
  (clipped ←? Optimizer.clip (self (Torch.tensor64 [7%float]));
   Ok (Optimizer.grad_elements clipped))
  = Ok [0x1.999999999999ap-4%float].
Proof. vm_compute. done. Qed.

(** A bound beyond the range of the gradient's element type is refused
    when it is stored. *)
Example Optimizer_clip_out_of_range :
  Optimizer.clip
    (Optimizer.mk [1%float]
       (Torch.mk_opt
          [Torch.mk_group
             [Torch.mk_param (Torch.tensor [0%float])
                             (Some (Torch.tensor [7%float]))]
             0%float] 0)
       StepLR.default true (Some (-1)%float) (Some 0x1p200%float))
  = Raise RuntimeError.
Proof. vm_compute. reflexivity. Qed.


(** *** The step *)



Example Optimizer_step_run :
  Optimizer.step (Descent.clipping [(-3)%float; 0.5%float; 7%float]) 40
  = Ok (StepLR.rate_lo,
        Optimizer.mk [1%float]
          (Torch.mk_opt
             [Torch.mk_group
                [Torch.mk_param
                   (Torch.tensor [(0 - StepLR.rate_lo * -1)%float])
                   (Some (Torch.tensor [(-1)%float; 0.5%float; 1%float]))]
                StepLR.rate_lo] 1)
          StepLR.default true (Some (-1)%float) (Some 1%float)).
Proof. vm_compute. reflexivity. Qed.


(** C3: whatever is passed as [coef], [__init__] behaves as without it
    and, the underlying optimizer being constructed, sets the coefficients
    to [[1.0] * len(params)] and every group's rate to 0; [step(epoch)]
    then hands the underlying optimizer every parameter group with the base
    scheduled rate itself as its rate, and returns that rate. *)
Theorem Optimizer_init_ignores_coef {S D : Type} {backend : Torch.Backend S D}
    (params : Optimizer.params_arg) (coef : option (list float)) (st : S) :
  Torch.adam_state (Optimizer.initial_groups params) 0%float = Ok st →
  Optimizer.init params coef = Optimizer.init params None ∧
  ∃ self : Optimizer.t S,
    Optimizer.init params coef = Ok self ∧
    Optimizer.coef self
      = replicate (length (match params with
                           | Optimizer.Single p => [p]
                           | Optimizer.Many ps => ps
                           end)) 1%float ∧
    Optimizer.opt self = Torch.mk_opt (Optimizer.initial_groups params) st ∧
    Optimizer.lr_func self = StepLR.default ∧
    Optimizer.clip_grads self = false ∧
    ∀ epoch,
      Optimizer.step self epoch
      = Ok (if (epoch <? 32)%Z then StepLR.rate_hi else StepLR.rate_lo,
            Optimizer.mk (Optimizer.coef self)
              (Torch.step
                 (Torch.mk_opt
                    (map (λ g,
                            Torch.mk_group (Torch.params g)
                              (if (epoch <? 32)%Z then StepLR.rate_hi
                               else StepLR.rate_lo))
                         (Optimizer.initial_groups params))
                    st))
              StepLR.default false None None).
Proof.
  intros Hst. split; [by rewrite !Optimizer_init_eq|].
  rewrite Optimizer_init_eq, Hst. simpl.
  eexists. split; [done|]. simpl.
  assert (Hn : length (Optimizer.initial_groups params)
               = length (match params with
                         | Optimizer.Single p => [p]
                         | Optimizer.Many ps => ps
                         end)).
  { unfold Optimizer.initial_groups. by rewrite length_map. }
  split_and!; [by rewrite Hn|done..|].
  intros epoch.
  set (rate := if (epoch <? 32)%Z then StepLR.rate_hi else StepLR.rate_lo).
  rewrite (Optimizer_step_unclipped _ epoch rate); simpl.
  - do 4 f_equal. unfold Optimizer.scaled.
    rewrite zip_with_replicate_r by done. f_equal. apply map_ext. intros g.
    unfold flip. f_equal. unfold rate. by destruct (epoch <? 32)%Z.
  - done.
  - unfold StepLR.call, rate. simpl. by destruct (epoch <? 32)%Z.
  - by rewrite length_replicate.
Qed.

Lemma Optimizer_init_ignores_coef_witness :
  let params :=
    Optimizer.Many
      [[Torch.mk_param (Torch.tensor [0%float]) None];
       [Torch.mk_param (Torch.tensor [2%float])
                       (Some (Torch.tensor [0.5%float]))]] in
  Torch.adam_state (Optimizer.initial_groups params) 0%float = Ok 0 ∧
  ∃ self : Optimizer.t nat,
    Optimizer.init params (Some [0.5%float; 3%float]) = Ok self ∧
    Optimizer.coef self = [1%float; 1%float] ∧
    Optimizer.step self 40
    = Ok (StepLR.rate_lo,
          Optimizer.mk [1%float; 1%float]
            (Torch.step
               (Torch.mk_opt
                  [Torch.mk_group
                     [Torch.mk_param (Torch.tensor [0%float]) None]
                     StepLR.rate_lo;
                   Torch.mk_group
                     [Torch.mk_param (Torch.tensor [2%float])
                                     (Some (Torch.tensor [0.5%float]))]
                     StepLR.rate_lo] 0))
            StepLR.default false None None).
Proof.
  split; [reflexivity|].
  destruct (proj2 (Optimizer_init_ignores_coef (backend := Descent.backend)
                     (Optimizer.Many
                        [[Torch.mk_param (Torch.tensor [0%float]) None];
                         [Torch.mk_param (Torch.tensor [2%float])
                                         (Some (Torch.tensor [0.5%float]))]])
                     (Some [0.5%float; 3%float]) 0 eq_refl))
    as (self & Hinit & Hcoef & _ & _ & _ & Hstep).
  exists self. split_and!; [exact Hinit | exact Hcoef |].
  rewrite (Hstep 40%Z), Hcoef. reflexivity.
Defined.

(** C5: [state_dict] returns the three fields [lr_func] (the rates and the
    thresholds of the schedule), [coef] and [opt_state]; [load_state_dict]
    only forwards its argument to the underlying optimizer: when that one
    raises so does the wrapper, and otherwise only the underlying optimizer
    is replaced, the coefficients and the schedule being those from before
    the call. *)
Theorem Optimizer_load_state_dict_frame {S D : Type}
    {backend : Torch.Backend S D} (self : Optimizer.t S) (opt_state : D) :
  Optimizer.state_dict self
  = Optimizer.mk_state
      (StepLR.mk_state (StepLR.lr (Optimizer.lr_func self))
                       (StepLR.lr_epochs (Optimizer.lr_func self)))
      (Optimizer.coef self)
      (Torch.state_dict (Optimizer.opt self)) ∧
  match Optimizer.load_state_dict self opt_state with
  | Ok self' =>
      Torch.load_state_dict (Optimizer.opt self) opt_state
        = Ok (Optimizer.opt self') ∧
      Optimizer.coef self' = Optimizer.coef self ∧
      Optimizer.lr_func self' = Optimizer.lr_func self ∧
      Optimizer.state_dict self'
        = Optimizer.mk_state (Optimizer.st_lr_func (Optimizer.state_dict self))
                             (Optimizer.st_coef (Optimizer.state_dict self))
                             (Torch.state_dict (Optimizer.opt self'))
  | Raise e => Torch.load_state_dict (Optimizer.opt self) opt_state = Raise e
  end.
Proof.
  split; [done|]. unfold Optimizer.load_state_dict.
  by destruct (Torch.load_state_dict (Optimizer.opt self) opt_state).
Qed.

(** ** Loading pretrained weights *)

Lemma Net_entry_tensor_size e : Net.size (Net.entry_tensor e) = Net.entry_size e.
Proof. by destruct e. Qed.

Lemma Net_expected_empty net key : Net.expected net ∅ key = net !! key.
Proof.
  unfold Net.expected. rewrite lookup_empty. by destruct (net !! key).
Qed.

(** The loop leaves under every key what [expected] describes. *)
Lemma Net_fold_lookup net pretrain_dict key :
  map_fold Net.body net pretrain_dict !! key
  = Net.expected net pretrain_dict key.
Proof.
  revert key.
  apply (map_fold_weak_ind
           (λ sd m, ∀ key, sd !! key = Net.expected net m key)).
  - intros key. by rewrite Net_expected_empty.
  - intros i e m sd Hfresh IH key.
    pose proof (IH i) as Hi. unfold Net.expected in Hi.
    rewrite Hfresh in Hi.
    unfold Net.body, Net.expected.
    destruct (decide (key = i)) as [->|Hne].
    + rewrite lookup_insert_eq.
      destruct (net !! i) as [current|] eqn:Hnet; rewrite Hi; [|done].
      case_bool_decide; [|done].
      rewrite lookup_insert_eq. by destruct e.
    + rewrite lookup_insert_ne by done.
      transitivity (sd !! key); [|apply IH].
      destruct (sd !! i) as [current|]; [|done].
      case_bool_decide; [|done]. by rewrite lookup_insert_ne.
Qed.

Lemma Net_expected_is_Some net pretrain_dict key current :
  net !! key = Some current →
  ∃ t, Net.expected net pretrain_dict key = Some t ∧
       Net.size t = Net.size current.
Proof.
  intros Hnet. unfold Net.expected. rewrite Hnet.
  destruct (pretrain_dict !! key) as [e|]; [|by exists current].
  case_bool_decide as Hsize; [|by exists current].
  exists (Net.entry_tensor e). by rewrite Net_entry_tensor_size.
Qed.

Lemma Net_copy_own t : Net.copy_ t t = t.
Proof.
  unfold Net.copy_. destruct t as [sz d vs]. simpl. f_equal.
  rewrite <- (map_id vs) at 2. apply map_ext. intros x.
  apply Dtype_convert_same.
Qed.

(** The strict reload at the end of [load_pretrain] never fails: the loop
    keeps the keys and the sizes of the model. *)
Lemma Net_load_pretrain_Ok net pretrain_dict :
  Net.load_pretrain net pretrain_dict
  = Ok (map_zip_with Net.copy_ net (map_fold Net.body net pretrain_dict)).
Proof.
  unfold Net.load_pretrain, Net.load_state_dict, Net.state_dict.
  rewrite bool_decide_true; [done|]. split.
  - apply set_eq. intros key. rewrite !elem_of_dom, Net_fold_lookup.
    unfold Net.expected. destruct (net !! key) as [current|]; [|done].
    destruct (pretrain_dict !! key); [case_bool_decide|]; by split.
  - intros key current Hnet. rewrite Net_fold_lookup.
    destruct (Net_expected_is_Some net pretrain_dict key current Hnet)
      as (t & -> & Hsize).
    simpl. by rewrite Hsize.
Qed.

(** What [load_pretrain] leaves under a key of the model. *)
Lemma Net_loaded_lookup net pretrain_dict key :
  map_zip_with Net.copy_ net (map_fold Net.body net pretrain_dict) !! key
  = match net !! key, pretrain_dict !! key with
    | Some current, Some e =>
        if bool_decide (Net.entry_size e = Net.size current)
        then Some (Net.copy_ current (Net.entry_tensor e))
        else Some current
    | Some current, None => Some current
    | None, _ => None
    end.
Proof.
  rewrite map_lookup_zip_with, Net_fold_lookup. unfold Net.expected.
  destruct (net !! key) as [current|]; simpl; [|done].
  destruct (pretrain_dict !! key) as [e|]; simpl.
  - case_bool_decide; simpl; [done|]. by rewrite Net_copy_own.
  - by rewrite Net_copy_own.
Qed.

(** C6 (as amended): [load_pretrain] raises nothing and leaves the model
    with its keys; under a key that the checkpoint has with exactly the
    parameter's shape, the parameter keeps its shape and its element type
    and takes the values of the checkpoint's tensor, converted to the
    parameter's element type when the two differ, so that it is the
    checkpoint's tensor itself when the element types agree; under every
    other key the parameter keeps its prior value; keys of the checkpoint
    that the model lacks are ignored. *)
Theorem load_pretrain_partial (net : gmap string Net.Tensor)
    (pretrain_dict : gmap string Net.entry) :
  ∃ net' : gmap string Net.Tensor,
    Net.load_pretrain net pretrain_dict = Ok net' ∧
    dom net' = dom net ∧
    (∀ key,
       net' !! key =
         match net !! key, pretrain_dict !! key with
         | Some current, Some e =>
             if bool_decide (Net.entry_size e = Net.size current)
             then
               Some (Net.mk_tensor (Net.size current) (Net.dtype current)
                       (if Dtype.eqb (Net.dtype (Net.entry_tensor e))
                                     (Net.dtype current)
                        then Net.values (Net.entry_tensor e)
                        else map (Dtype.cast (Net.dtype current))
                                 (Net.values (Net.entry_tensor e))))
             else Some current
         | Some current, None => Some current
         | None, _ => None
         end) ∧
    (∀ key current e,
       net !! key = Some current →
       pretrain_dict !! key = Some e →
       Net.entry_size e = Net.size current →
       Net.dtype (Net.entry_tensor e) = Net.dtype current →
       net' !! key = Some (Net.entry_tensor e)).
Proof.
  eexists. split; [apply Net_load_pretrain_Ok|]. split_and!.
  - apply set_eq. intros key. rewrite !elem_of_dom, Net_loaded_lookup.
    destruct (net !! key) as [current|]; [|done].
    destruct (pretrain_dict !! key); [case_bool_decide|]; by split.
  - intros key. rewrite Net_loaded_lookup.
    destruct (net !! key) as [current|]; [|done].
    destruct (pretrain_dict !! key) as [e|]; [|done].
    case_bool_decide; [|done]. do 2 f_equal. unfold Net.copy_. f_equal.
    unfold Dtype.convert. destruct (Dtype.eqb _ _); [|done].
    rewrite <- (map_id (Net.values _)) at 2. done.
  - intros key current e Hnet He Hsize Hdtype.
    rewrite Net_loaded_lookup, Hnet, He, bool_decide_true by done.
    f_equal. unfold Net.copy_.
    rewrite <- Hsize, <- Hdtype, <- Net_entry_tensor_size.
    destruct (Net.entry_tensor e) as [sz d vs]. simpl. f_equal.
    rewrite <- (map_id vs) at 2. apply map_ext. intros x.
    apply Dtype_convert_same.
Qed.

(** C6 as stated fails: a checkpoint in double precision loaded into a
    parameter in single precision of the same shape is not copied as it
    is: the parameter ends up with the checkpoint's values rounded to
    single precision. *)
Lemma load_pretrain_rounds_counterexample :
  ¬ (∀ (net net' : gmap string Net.Tensor)
       (pretrain_dict : gmap string Net.entry) key current e,
       Net.load_pretrain net pretrain_dict = Ok net' →
       net !! key = Some current →
       pretrain_dict !! key = Some e →
       Net.entry_size e = Net.size current →
       ∃ t, net' !! key = Some t ∧
            Net.values t = Net.values (Net.entry_tensor e)).
Proof.
  intros Hclaim.
  set (w := Net.mk_tensor [1] Dtype.Float32 [0%float]).
  set (w' := Net.mk_tensor [1] Dtype.Float64 [0x1.999999999999ap-4%float]).
  destruct (Hclaim {[ "w" := w ]}
              {[ "w" := Net.mk_tensor [1] Dtype.Float32 [0x1.99999ap-4%float] ]}
              {[ "w" := Net.Plain w' ]} "w" w (Net.Plain w'))
    as (t & Ht & Hvalues); [by vm_compute..|].
  apply (f_equal (λ o, default [] (Net.values <$> o))) in Ht.
  simpl in Ht. rewrite Hvalues in Ht.
  apply (f_equal (λ l, (default 0 (head l) <=? 0x1.999999999999ap-4)%float))
    in Ht.
  vm_compute in Ht. discriminate Ht.
Qed.

Example load_pretrain_run :
  let w := Net.mk_tensor [2] Dtype.Float32 [1%float; 2%float] in
  let b := Net.mk_tensor [1] Dtype.Float32 [0%float] in
  let w' := Net.mk_tensor [2] Dtype.Float32 [5%float; 6%float] in
  let b' := Net.mk_tensor [3] Dtype.Float32 [7%float; 8%float; 9%float] in
  Net.load_pretrain
    {[ "w" := w; "b" := b ]}
    {[ "w" := Net.Wrapped w'; "b" := Net.Plain b'; "extra" := Net.Plain w' ]}
  = Ok {[ "w" := w'; "b" := b ]}.
Proof. vm_compute. reflexivity. Qed.

(** ** [index_dict] *)

Section index_dict_facts.
Context {K : Type} `{Countable K} {V I R : Type} `{!Subscript V I R}.

(** The loop over any list of keys all of whose values can be subscripted:
    it succeeds, leaves [data] alone and fills [returns] under exactly the
    keys visited. *)
Lemma IndexDict_loop_Ok (idcs : I) (keys : list K)
    (st : IndexDict.locals (K:=K) (V:=V) (R:=R)) :
  (∀ key, key ∈ keys →
     ∃ value x, IndexDict.data st !! key = Some value ∧
                subscript value idcs = Ok x) →
  ∃ st',
    IndexDict.loop idcs keys st = Ok st' ∧
    IndexDict.data st' = IndexDict.data st ∧
    (∀ key, key ∉ keys →
       IndexDict.returns st' !! key = IndexDict.returns st !! key) ∧
    (∀ key, key ∈ keys →
       ∃ value x, IndexDict.data st !! key = Some value ∧
                  subscript value idcs = Ok x ∧
                  IndexDict.returns st' !! key = Some x).
Proof.
  revert st. induction keys as [|k keys IH]; intros st Hall; simpl.
  - exists st. split_and!; [done..|]. intros key Hin.
    by apply elem_of_nil in Hin.
  - destruct (Hall k) as (value & x & Hk & Hx); [apply list_elem_of_here|].
    unfold IndexDict.body. rewrite Hk, Hx. simpl.
    set (st1 := IndexDict.mk _ _).
    destruct (IH st1) as (st' & Hloop & Hdata & Hout & Hin).
    { intros key Hkey. apply Hall. by apply list_elem_of_further. }
    exists st'. split_and!; [done|done|..].
    + intros key Hkey. apply not_elem_of_cons in Hkey as [Hne Hkey].
      rewrite (Hout key Hkey). simpl. by rewrite lookup_insert_ne.
    + intros key Hkey. destruct (decide (key ∈ keys)) as [Hrest|Hrest].
      * apply (Hin key Hrest).
      * apply elem_of_cons in Hkey as [->|Hkey]; [|done].
        exists value, x. split_and!; [done..|].
        rewrite (Hout k Hrest). simpl. apply lookup_insert_eq.
Qed.

Lemma IndexDict_run_Ok (data : gmap K V) (idcs : I) :
  map_Forall (λ _ value, ∃ x, subscript value idcs = Ok x) data →
  ∃ st,
    IndexDict.run data idcs = Ok st ∧
    IndexDict.data st = data ∧
    dom (IndexDict.returns st) = dom data ∧
    ∀ key value, data !! key = Some value →
      ∃ x : R, subscript value idcs = Ok x ∧
               IndexDict.returns st !! key = Some x.
Proof.
  intros Hall. unfold IndexDict.run.
  destruct (IndexDict_loop_Ok idcs (map_to_list data).*1
              (IndexDict.mk data ∅)) as (st & Hloop & Hdata & Hout & Hin).
  { intros key ((k & value) & -> & Hkv)%list_elem_of_fmap. simpl.
    apply elem_of_map_to_list in Hkv.
    destruct (Hall k value Hkv) as [x Hx]. by exists value, x. }
  assert (Hkeys : ∀ key, key ∈ (map_to_list data).*1 ↔ is_Some (data !! key)).
  { intros key. rewrite list_elem_of_fmap. split.
    - intros ((k & value) & -> & Hkv). apply elem_of_map_to_list in Hkv.
      by exists value.
    - intros [value Hv]. exists (key, value). split; [done|].
      by apply elem_of_map_to_list. }
  exists st. split_and!; [done|done|..].
  - apply set_eq. intros key. rewrite !elem_of_dom, <- Hkeys. split.
    + intros Hsome. destruct (decide (key ∈ (map_to_list data).*1)); [done|].
      rewrite (Hout key) in Hsome by done. simpl in Hsome.
      rewrite lookup_empty in Hsome. by destruct Hsome.
    + intros (value & x & _ & _ & Hr)%Hin. by exists x.
  - intros key value Hv.
    destruct (Hin key) as (value' & x & Hv' & Hx & Hr).
    { apply Hkeys. by exists value. }
    simpl in Hv'. assert (value' = value) as -> by congruence.
    by exists x.
Qed.

End index_dict_facts.

(** C8: when every value of [d] can be subscripted by [idcs],
    [index_dict(d, idcs)] returns a new mapping with exactly the keys of
    [d] and [d[key][idcs]] under every key, and [d] is as before when it
    returns. *)
Theorem index_dict_selects {K : Type} `{Countable K} {V I R : Type}
    `{!Subscript V I R} (d : gmap K V) (idcs : I) :
  map_Forall (λ _ value, ∃ x, subscript value idcs = Ok x) d →
  ∃ result,
    IndexDict.index_dict d idcs = Ok result ∧
    dom result = dom d ∧
    (∀ key value, d !! key = Some value →
       ∃ x : R, subscript value idcs = Ok x ∧ result !! key = Some x) ∧
    ∃ st, IndexDict.run d idcs = Ok st ∧
          IndexDict.returns st = result ∧
          IndexDict.data st = d.
Proof.
  intros Hall.
  destruct (IndexDict_run_Ok d idcs Hall) as (st & Hrun & Hdata & Hdom & Hsel).
  exists (IndexDict.returns st). unfold IndexDict.index_dict. rewrite Hrun.
  split_and!; [done..|]. by exists st.
Qed.

Lemma index_dict_selects_witness :
  let d : gmap string (list Z) :=
    {[ "x" := [10; 11; 12]%Z; "y" := [20; 21; 22]%Z ]} in
  map_Forall (λ _ value, ∃ x : list Z, subscript value [2; 0] = Ok x) d ∧
  ∃ result : gmap string (list Z),
    IndexDict.index_dict d [2; 0] = Ok result ∧
    dom result = dom d ∧
    (∀ key value, d !! key = Some value →
       ∃ x : list Z, subscript value [2; 0] = Ok x ∧ result !! key = Some x) ∧
    ∃ st, IndexDict.run d [2; 0] = Ok st ∧
          IndexDict.returns st = result ∧
          IndexDict.data st = d.
Proof.
  assert (Hall : map_Forall
            (λ (_ : string) (value : list Z),
               ∃ x : list Z, subscript value [2; 0] = Ok x)
            ({[ "x" := [10; 11; 12]%Z; "y" := [20; 21; 22]%Z ]}
               : gmap string (list Z))).
  { apply map_Forall_insert_2; [by eexists|].
    apply map_Forall_singleton. by eexists. }
  split; [exact Hall|].
  exact (index_dict_selects _ [2; 0] Hall).
Defined.

Example index_dict_run :
  IndexDict.index_dict
    ({[ "x" := [10; 11; 12]%Z; "y" := [20; 21; 22]%Z ]}
       : gmap string (list Z)) [2; 0]
  = Ok {[ "x" := [12; 10]%Z; "y" := [22; 20]%Z ]}.
Proof. vm_compute. reflexivity. Qed.

Example index_dict_out_of_range :
  IndexDict.index_dict
    ({[ "x" := [10; 11; 12]%Z; "y" := [20]%Z ]} : gmap string (list Z)) 1
  = Raise IndexError.
Proof. vm_compute. reflexivity. Qed.

(** ** [to_long] *)

(** *** Nested containers *)

Section tree_induction.
Variable P : ToLong.tree → Prop.
Hypothesis Hdict :
  ∀ items, Forall (λ kt, P kt.2) items → P (ToLong.TDict items).
Hypothesis Hlist : ∀ items, Forall P items → P (ToLong.TList items).
Hypothesis Htuple : ∀ items, Forall P items → P (ToLong.TTuple items).
Hypothesis Htensor : ∀ t, P (ToLong.TTensor t).
Hypothesis Hother : ∀ tag, P (ToLong.TOther tag).

Fixpoint ToLong_tree_ind (t : ToLong.tree) : P t :=
  match t with
  | ToLong.TDict items =>
      Hdict items
        ((fix go (items : list (string * ToLong.tree))
            : Forall (λ kt, P kt.2) items :=
            match items with
            | [] => @List.Forall_nil _ _
            | (k, t) :: rest =>
                @List.Forall_cons _ (λ kt, P kt.2) (k, t) rest
                                  (ToLong_tree_ind t) (go rest)
            end) items)
  | ToLong.TList items =>
      Hlist items
        ((fix go (items : list ToLong.tree) : Forall P items :=
            match items with
            | [] => @List.Forall_nil _ _
            | t :: rest => @List.Forall_cons _ P t rest (ToLong_tree_ind t) (go rest)
            end) items)
  | ToLong.TTuple items =>
      Htuple items
        ((fix go (items : list ToLong.tree) : Forall P items :=
            match items with
            | [] => @List.Forall_nil _ _
            | t :: rest => @List.Forall_cons _ P t rest (ToLong_tree_ind t) (go rest)
            end) items)
  | ToLong.TTensor t => Htensor t
  | ToLong.TOther tag => Hother tag
  end.

End tree_induction.

Lemma ToLong_tsize_dict items :
  ToLong.tsize (ToLong.TDict items)
  = S (sum_list_with (λ kt, ToLong.tsize kt.2) items).
Proof.
  simpl. f_equal. induction items as [|[k t] items IH]; simpl; [done|].
  by rewrite IH.
Qed.

Lemma ToLong_tsize_list items :
  ToLong.tsize (ToLong.TList items) = S (sum_list_with ToLong.tsize items).
Proof. reflexivity. Qed.

Lemma ToLong_tsize_tuple items :
  ToLong.tsize (ToLong.TTuple items) = S (sum_list_with ToLong.tsize items).
Proof. reflexivity. Qed.

Lemma sum_list_with_elem {A} (f : A → nat) (l : list A) (x : A) :
  x ∈ l → f x ≤ sum_list_with f l.
Proof.
  induction 1 as [|x y l _ IH]; simpl; lia.
Qed.

Lemma sum_list_with_Forall2 {A B} (f : A → nat) (g : B → nat) l k :
  Forall2 (λ x y, g y = f x) l k → sum_list_with g k = sum_list_with f l.
Proof. induction 1; simpl; lia. Qed.

Lemma ToLong_widen_idem t : ToLong.widen (ToLong.widen t) = ToLong.widen t.
Proof. by destruct t as [[] ?|?]. Qed.

Lemma ToLong_convert_idem t :
  ToLong.convert (ToLong.convert t) = ToLong.convert t.
Proof.
  induction t as [items IH|items IH|items IH|t|tag] using ToLong_tree_ind;
    simpl; [| | |by rewrite ToLong_widen_idem|done]; f_equal.
  - rewrite map_map. induction IH as [|[k t] items Ht _ IHitems]; simpl; [done|].
    simpl in Ht. by rewrite Ht, IHitems.
  - rewrite map_map. induction IH as [|t items Ht _ IHitems]; simpl; [done|].
    by rewrite Ht, IHitems.
  - rewrite map_map. induction IH as [|t items Ht _ IHitems]; simpl; [done|].
    by rewrite Ht, IHitems.
Qed.

Lemma ToLong_tsize_convert t : ToLong.tsize (ToLong.convert t) = ToLong.tsize t.
Proof.
  induction t as [items IH|items IH|items IH|t|tag] using ToLong_tree_ind;
    [| | |done..].
  - change (ToLong.convert (ToLong.TDict items))
      with (ToLong.TDict (map (λ '(k, t), (k, ToLong.convert t)) items)).
    rewrite !ToLong_tsize_dict. f_equal.
    induction IH as [|[k t] items Ht _ IHitems]; simpl; [done|].
    simpl in Ht. by rewrite Ht, IHitems.
  - change (ToLong.convert (ToLong.TList items))
      with (ToLong.TList (map ToLong.convert items)).
    rewrite !ToLong_tsize_list. f_equal.
    induction IH as [|t items Ht _ IHitems]; simpl; [done|].
    by rewrite Ht, IHitems.
  - change (ToLong.convert (ToLong.TTuple items))
      with (ToLong.TList (map ToLong.convert items)).
    rewrite ToLong_tsize_list, ToLong_tsize_tuple. f_equal.
    induction IH as [|t items Ht _ IHitems]; simpl; [done|].
    by rewrite Ht, IHitems.
Qed.

(** The conversion keeps the shape of the container. *)
Lemma ToLong_shape_convert t :
  ToLong.shape_of (ToLong.convert t) = ToLong.shape_of t.
Proof.
  induction t as [items IH|items IH|items IH|t|tag] using ToLong_tree_ind;
    simpl; [| | |done..]; f_equal; rewrite map_map.
  - induction IH as [|[k t] items Ht _ IHitems]; simpl; [done|].
    simpl in Ht. by rewrite Ht, IHitems.
  - induction IH as [|t items Ht _ IHitems]; simpl; [done|].
    by rewrite Ht, IHitems.
  - induction IH as [|t items Ht _ IHitems]; simpl; [done|].
    by rewrite Ht, IHitems.
Qed.

(** The conversion acts on the leaves, one by one. *)
Lemma ToLong_leaves_convert t :
  ToLong.leaves (ToLong.convert t)
  = map ToLong.convert_leaf (ToLong.leaves t).
Proof.
  induction t as [items IH|items IH|items IH|t|tag] using ToLong_tree_ind;
    simpl; [| | |done..].
  - induction IH as [|[k t] items Ht _ IHitems]; simpl; [done|].
    simpl in Ht. by rewrite Ht, IHitems, map_app.
  - induction IH as [|t items Ht _ IHitems]; simpl; [done|].
    by rewrite Ht, IHitems, map_app.
  - induction IH as [|t items Ht _ IHitems]; simpl; [done|].
    by rewrite Ht, IHitems, map_app.
Qed.

(** *** Partly converted containers *)

Lemma ToLong_evolves_refl t : ToLong.evolves t t.
Proof.
  induction t as [items IH|items IH|items IH|t|tag] using ToLong_tree_ind.
  - apply ToLong.ev_dict.
    induction IH as [|[k t] items Ht _ IHitems]; constructor; [|done].
    by split.
  - apply ToLong.ev_list. induction IH; by constructor.
  - apply ToLong.ev_tuple. induction IH; by constructor.
  - apply ToLong.ev_tensor.
  - apply ToLong.ev_other.
Qed.

(** Converting a partly converted container gives the conversion of the
    original. *)
Lemma ToLong_evolves_convert t t' :
  ToLong.evolves t t' → ToLong.convert t' = ToLong.convert t.
Proof.
  revert t'.
  induction t as [items IH|items IH|items IH|t|tag] using ToLong_tree_ind;
    intros t' Hev; inversion Hev as [|? items' Hitems|? items' Hitems
                                     |? items' Hitems| |]; subst;
    try apply ToLong_convert_idem; try done; simpl; f_equal.
  - clear Hev. revert IH. induction Hitems as [|[k t] [k' t'] items items' [Hk Ht] _ IHitems];
      intros IH; [done|].
    apply Forall_cons in IH as [IHt IH]. simpl in *. subst k'.
    by rewrite (IHt t' Ht), IHitems.
  - clear Hev. revert IH. induction Hitems as [|t t' items items' Ht _ IHitems];
      intros IH; [done|].
    apply Forall_cons in IH as [IHt IH]. simpl.
    by rewrite (IHt t' Ht), IHitems.
  - clear Hev. revert IH. induction Hitems as [|t t' items items' Ht _ IHitems];
      intros IH; [done|].
    apply Forall_cons in IH as [IHt IH]. simpl.
    by rewrite (IHt t' Ht), IHitems.
Qed.

Lemma ToLong_evolves_tsize t t' :
  ToLong.evolves t t' → ToLong.tsize t' = ToLong.tsize t.
Proof.
  revert t'.
  induction t as [items IH|items IH|items IH|t|tag] using ToLong_tree_ind;
    intros t' Hev; inversion Hev as [|? items' Hitems|? items' Hitems
                                     |? items' Hitems| |]; subst;
    try apply ToLong_tsize_convert; try done.
  - rewrite !ToLong_tsize_dict. f_equal.
    clear Hev. revert IH. induction Hitems as [|[k t] [k' t'] items items' [Hk Ht] _ IHitems];
      intros IH; [done|].
    apply Forall_cons in IH as [IHt IH]. simpl in *.
    by rewrite (IHt t' Ht), IHitems.
  - rewrite !ToLong_tsize_list. f_equal.
    clear Hev. revert IH. induction Hitems as [|t t' items items' Ht _ IHitems];
      intros IH; [done|].
    apply Forall_cons in IH as [IHt IH]. simpl.
    by rewrite (IHt t' Ht), IHitems.
  - rewrite !ToLong_tsize_tuple. f_equal.
    clear Hev. revert IH. induction Hitems as [|t t' items items' Ht _ IHitems];
      intros IH; [done|].
    apply Forall_cons in IH as [IHt IH]. simpl.
    by rewrite (IHt t' Ht), IHitems.
Qed.

(** A converted container does not change any more. *)
Lemma ToLong_evolves_converted t t' :
  ToLong.evolves (ToLong.convert t) t' → t' = ToLong.convert t.
Proof.
  revert t'.
  induction t as [items IH|items IH|items IH|t|tag] using ToLong_tree_ind;
    intros t' Hev; simpl in Hev;
    inversion Hev as [|? items' Hitems|? items' Hitems
                      |? items' Hitems| |]; subst;
    try (by apply (ToLong_convert_idem (ToLong.TDict items)));
    try (by apply (ToLong_convert_idem (ToLong.TList items)));
    try (by apply (ToLong_convert_idem (ToLong.TTuple items)));
    try (by apply (ToLong_convert_idem (ToLong.TTensor t)));
    try done; simpl; f_equal.
  - clear Hev. revert items' Hitems.
    induction IH as [|[k t] items IHt _ IHitems]; intros items' Hitems; simpl in *.
    + by apply Forall2_nil_inv_l in Hitems.
    + apply Forall2_cons_inv_l in Hitems
        as ([k' t'] & rest' & [Hk Ht] & Hrest & ->). simpl in *. subst k'.
      by rewrite (IHt t' Ht), (IHitems rest' Hrest).
  - clear Hev. revert items' Hitems.
    induction IH as [|t items IHt _ IHitems]; intros items' Hitems; simpl in *.
    + by apply Forall2_nil_inv_l in Hitems.
    + apply Forall2_cons_inv_l in Hitems as (t' & rest' & Ht & Hrest & ->).
      by rewrite (IHt t' Ht), (IHitems rest' Hrest).
  - clear Hev. revert items' Hitems.
    induction IH as [|t items IHt _ IHitems]; intros items' Hitems; simpl in *.
    + by apply Forall2_nil_inv_l in Hitems.
    + apply Forall2_cons_inv_l in Hitems as (t' & rest' & Ht & Hrest & ->).
      by rewrite (IHt t' Ht), (IHitems rest' Hrest).
Qed.

Lemma ToLong_evolves_trans t1 t2 t3 :
  ToLong.evolves t1 t2 → ToLong.evolves t2 t3 → ToLong.evolves t1 t3.
Proof.
  revert t2 t3.
  induction t1 as [items IH|items IH|items IH|t|tag] using ToLong_tree_ind;
    intros t2 t3 H12 H23;
    inversion H12 as [|? items2 Hitems|? items2 Hitems
                      |? items2 Hitems| |]; subst;
    try (apply ToLong_evolves_converted in H23 as ->; apply ToLong.ev_convert);
    try done;
    inversion H23 as [|? items3 Hitems'|? items3 Hitems'
                      |? items3 Hitems'| |]; subst.
  - rewrite (ToLong_evolves_convert _ _ H12). apply ToLong.ev_convert.
  - apply ToLong.ev_dict. clear H12 H23. revert items3 Hitems' IH.
    induction Hitems as [|[k t] [k2 t2] items items2 [Hk Ht] _ IHitems];
      intros items3 Hitems' IH.
    + apply Forall2_nil_inv_l in Hitems' as ->. constructor.
    + apply Forall2_cons_inv_l in Hitems'
        as ([k3 t3] & rest3 & [Hk' Ht'] & Hrest & ->).
      apply Forall_cons in IH as [IHt IH]. simpl in *.
      constructor; [|by apply IHitems].
      split; simpl; [congruence|]. by apply (IHt t2 t3).
  - rewrite (ToLong_evolves_convert _ _ H12). apply ToLong.ev_convert.
  - apply ToLong.ev_list. clear H12 H23. revert items3 Hitems' IH.
    induction Hitems as [|t t2 items items2 Ht _ IHitems];
      intros items3 Hitems' IH.
    + apply Forall2_nil_inv_l in Hitems' as ->. constructor.
    + apply Forall2_cons_inv_l in Hitems' as (t3 & rest3 & Ht' & Hrest & ->).
      apply Forall_cons in IH as [IHt IH].
      constructor; [by apply (IHt t2 t3)|by apply IHitems].
  - rewrite (ToLong_evolves_convert _ _ H12). apply ToLong.ev_convert.
  - apply ToLong.ev_tuple. clear H12 H23. revert items3 Hitems' IH.
    induction Hitems as [|t t2 items items2 Ht _ IHitems];
      intros items3 Hitems' IH.
    + apply Forall2_nil_inv_l in Hitems' as ->. constructor.
    + apply Forall2_cons_inv_l in Hitems' as (t3 & rest3 & Ht' & Hrest & ->).
      apply Forall_cons in IH as [IHt IH].
      constructor; [by apply (IHt t2 t3)|by apply IHitems].
Qed.

(** *** References and the containers they hold *)

Lemma Forall2_impl_Forall_r {A B} (R R' : A → B → Prop) l k :
  Forall2 R l k → Forall (λ y, ∀ x, R x y → R' x y) k → Forall2 R' l k.
Proof.
  induction 1 as [|x y l k Hxy _ IH]; intros Hall; [constructor|].
  apply Forall_cons in Hall as [Hy Hall]. constructor; auto.
Qed.

Lemma ToLong_tsize_pos t : 0 < ToLong.tsize t.
Proof. destruct t; simpl; lia. Qed.

Lemma ToLong_tsize_dict_elem items kt :
  kt ∈ items → ToLong.tsize kt.2 < ToLong.tsize (ToLong.TDict items).
Proof.
  intros Hin. rewrite ToLong_tsize_dict.
  pose proof (sum_list_with_elem (λ kt, ToLong.tsize kt.2) items kt Hin).
  simpl in *. lia.
Qed.

Lemma ToLong_tsize_list_elem items t :
  t ∈ items → ToLong.tsize t < ToLong.tsize (ToLong.TList items).
Proof.
  intros Hin. rewrite ToLong_tsize_list.
  pose proof (sum_list_with_elem ToLong.tsize items t Hin). lia.
Qed.

Lemma ToLong_tsize_tuple_elem items t :
  t ∈ items → ToLong.tsize t < ToLong.tsize (ToLong.TTuple items).
Proof.
  intros Hin. rewrite ToLong_tsize_tuple.
  pose proof (sum_list_with_elem ToLong.tsize items t Hin). lia.
Qed.

(** A reference holds at most one container. *)
Lemma ToLong_repr_functional h l t1 t2 :
  ToLong.repr h l t1 → ToLong.repr h l t2 → t1 = t2.
Proof.
  revert l t2.
  induction t1 as [titems IH|titems IH|titems IH|t|tag] using ToLong_tree_ind;
    intros l t2 H1 H2;
    inversion H1 as [? items ? Hl Hitems Hnd|? items ? Hl Hitems
                     |? items ? Hl Hitems|? ? Hl|? ? Hl]; subst;
    inversion H2 as [? items2 titems2 Hl2 Hitems2 Hnd2|? items2 titems2 Hl2 Hitems2
                     |? items2 titems2 Hl2 Hitems2|? ? Hl2|? ? Hl2]; subst;
    try congruence; f_equal.
  - assert (items2 = items) as -> by congruence.
    clear H1 H2 Hl Hl2 Hnd Hnd2. revert titems2 Hitems2 IH.
    induction Hitems as [|[k x] [k1 t1] items titems [Hk Ht] _ IHitems];
      intros titems2 Hitems2 IH.
    + by apply Forall2_nil_inv_l in Hitems2.
    + apply Forall2_cons_inv_l in Hitems2
        as ([k2 t2] & rest2 & [Hk2 Ht2] & Hrest & ->).
      apply Forall_cons in IH as [IHt IH]. simpl in *. subst k1 k2.
      by rewrite (IHt x t2 Ht Ht2), (IHitems rest2 Hrest IH).
  - assert (items2 = items) as -> by congruence.
    clear H1 H2 Hl Hl2. revert titems2 Hitems2 IH.
    induction Hitems as [|x t1 items titems Ht _ IHitems];
      intros titems2 Hitems2 IH.
    + by apply Forall2_nil_inv_l in Hitems2.
    + apply Forall2_cons_inv_l in Hitems2 as (t2 & rest2 & Ht2 & Hrest & ->).
      apply Forall_cons in IH as [IHt IH].
      by rewrite (IHt x t2 Ht Ht2), (IHitems rest2 Hrest IH).
  - assert (items2 = items) as -> by congruence.
    clear H1 H2 Hl Hl2. revert titems2 Hitems2 IH.
    induction Hitems as [|x t1 items titems Ht _ IHitems];
      intros titems2 Hitems2 IH.
    + by apply Forall2_nil_inv_l in Hitems2.
    + apply Forall2_cons_inv_l in Hitems2 as (t2 & rest2 & Ht2 & Hrest & ->).
      apply Forall_cons in IH as [IHt IH].
      by rewrite (IHt x t2 Ht Ht2), (IHitems rest2 Hrest IH).
Qed.

(** A container stays where it is when the objects it is made of do. *)
Lemma ToLong_repr_mono h h' l t :
  (∀ x o, h !! x = Some o → h' !! x = Some o) →
  ToLong.repr h l t → ToLong.repr h' l t.
Proof.
  intros Hsub. revert l.
  induction t as [titems IH|titems IH|titems IH|t|tag] using ToLong_tree_ind;
    intros l Hr;
    inversion Hr as [? items ? Hl Hitems Hnd|? items ? Hl Hitems
                     |? items ? Hl Hitems|? ? Hl|? ? Hl]; subst.
  - apply ToLong.repr_dict with items; [by apply Hsub| |done].
    apply (Forall2_impl_Forall_r _ _ _ _ Hitems).
    apply (Forall_impl _ _ _ IH). intros [k t] IHt [k' x] [Hk Hx].
    split; [done|]. by apply IHt.
  - apply ToLong.repr_list with items; [by apply Hsub|].
    apply (Forall2_impl_Forall_r _ _ _ _ Hitems).
    apply (Forall_impl _ _ _ IH). intros t IHt x Hx. by apply IHt.
  - apply ToLong.repr_tuple with items; [by apply Hsub|].
    apply (Forall2_impl_Forall_r _ _ _ _ Hitems).
    apply (Forall_impl _ _ _ IH). intros t IHt x Hx. by apply IHt.
  - apply ToLong.repr_tensor. by apply Hsub.
  - apply ToLong.repr_other. by apply Hsub.
Qed.

Lemma ToLong_repr_app h o l t :
  ToLong.repr h l t → ToLong.repr (h ++ [o]) l t.
Proof.
  apply ToLong_repr_mono. intros x o' Hx. by apply lookup_app_l_Some.
Qed.

(** Writing to the object at [l] does not change the containers that are
    smaller than the one [l] holds: they cannot contain [l]. *)
Lemma ToLong_repr_update h l D o x d :
  ToLong.repr h l D →
  ToLong.tsize d < ToLong.tsize D →
  ToLong.repr h x d → ToLong.repr (<[l := o]> h) x d.
Proof.
  intros HD. revert x.
  induction d as [titems IH|titems IH|titems IH|t|tag] using ToLong_tree_ind;
    intros x Hsize Hr;
    (assert (x ≠ l) as Hne
       by (intros ->; pose proof (ToLong_repr_functional _ _ _ _ HD Hr);
           subst; lia));
    inversion Hr as [? items ? Hl Hitems Hnd|? items ? Hl Hitems
                     |? items ? Hl Hitems|? ? Hl|? ? Hl]; subst.
  - apply ToLong.repr_dict with items;
      [by rewrite list_lookup_insert_ne| |done].
    apply (Forall2_impl_Forall_r _ _ _ _ Hitems).
    rewrite Forall_forall in IH. apply Forall_forall.
    intros [k t] Hin [k' y] [Hk Hy]. split; [done|].
    apply (IH _ Hin); [|done].
    pose proof (ToLong_tsize_dict_elem _ _ Hin). simpl in *. lia.
  - apply ToLong.repr_list with items; [by rewrite list_lookup_insert_ne|].
    apply (Forall2_impl_Forall_r _ _ _ _ Hitems).
    rewrite Forall_forall in IH. apply Forall_forall.
    intros t Hin y Hy. apply (IH _ Hin); [|done].
    pose proof (ToLong_tsize_list_elem _ _ Hin). lia.
  - apply ToLong.repr_tuple with items; [by rewrite list_lookup_insert_ne|].
    apply (Forall2_impl_Forall_r _ _ _ _ Hitems).
    rewrite Forall_forall in IH. apply Forall_forall.
    intros t Hin y Hy. apply (IH _ Hin); [|done].
    pose proof (ToLong_tsize_tuple_elem _ _ Hin). lia.
  - apply ToLong.repr_tensor. by rewrite list_lookup_insert_ne.
  - apply ToLong.repr_other. by rewrite list_lookup_insert_ne.
Qed.

(** *** What a store may become *)

Lemma Forall2_exists_r {A B} (R R' : A → B → Prop) (E : B → B → Prop) l k :
  Forall2 R l k →
  Forall (λ y, ∀ x, R x y → ∃ y', R' x y' ∧ E y y') k →
  ∃ k', Forall2 R' l k' ∧ Forall2 E k k'.
Proof.
  induction 1 as [|x y l k Hxy _ IH]; intros Hall.
  - exists []. split; constructor.
  - apply Forall_cons in Hall as [Hy Hall].
    destruct (Hy x Hxy) as (y' & Hy' & HE).
    destruct (IH Hall) as (k' & Hk' & HEk).
    exists (y' :: k'). split; by constructor.
Qed.

Lemma ToLong_evolves_keys (items items' : list (string * ToLong.tree)) :
  Forall2 (λ kt kt', kt.1 = kt'.1 ∧ ToLong.evolves kt.2 kt'.2) items items' →
  items'.*1 = items.*1.
Proof.
  induction 1 as [|[k t] [k' t'] items items' [Hk _] _ IH]; [done|].
  rewrite !fmap_cons. simpl in Hk. by f_equal.
Qed.

Lemma ToLong_evolves_dict_inv items D :
  ToLong.evolves (ToLong.TDict items) D →
  ∃ items', D = ToLong.TDict items' ∧
    Forall2 (λ kt kt', kt.1 = kt'.1 ∧ ToLong.evolves kt.2 kt'.2) items items'.
Proof.
  intros Hev. inversion Hev as [|? items' Hitems| | | |]; subst.
  - eexists. split; [done|]. clear Hev.
    induction items as [|[k t] items IH]; simpl; constructor; [|done].
    split; [done|]. apply ToLong.ev_convert.
  - by exists items'.
Qed.

Lemma ToLong_obj_kept_refl o : ToLong.obj_kept o o.
Proof. destruct o; simpl; eauto. Qed.

Lemma ToLong_obj_kept_trans o1 o2 o3 :
  ToLong.obj_kept o1 o2 → ToLong.obj_kept o2 o3 → ToLong.obj_kept o1 o3.
Proof.
  destruct o1; simpl; try (by intros ->).
  intros (items2 & -> & Hk2). simpl. intros (items3 & -> & Hk3).
  exists items3. split; [done|congruence].
Qed.

Lemma ToLong_heap_le_refl h : ToLong.heap_le h h.
Proof.
  split_and!; [done|..].
  - intros l o Hl. exists o. split; [done|apply ToLong_obj_kept_refl].
  - intros l t Hr. exists t. split; [done|apply ToLong_evolves_refl].
Qed.

Lemma ToLong_heap_le_trans h1 h2 h3 :
  ToLong.heap_le h1 h2 → ToLong.heap_le h2 h3 → ToLong.heap_le h1 h3.
Proof.
  intros (Hlen & Hobj & Hrep) (Hlen' & Hobj' & Hrep'). split_and!; [lia|..].
  - intros l o Hl. destruct (Hobj l o Hl) as (o2 & Hl2 & Hk).
    destruct (Hobj' l o2 Hl2) as (o3 & Hl3 & Hk'). exists o3.
    split; [done|]. by apply ToLong_obj_kept_trans with o2.
  - intros l t Hr. destruct (Hrep l t Hr) as (t2 & Hr2 & He).
    destruct (Hrep' l t2 Hr2) as (t3 & Hr3 & He'). exists t3.
    split; [done|]. by apply ToLong_evolves_trans with t2.
Qed.

Lemma ToLong_heap_le_alloc h o : ToLong.heap_le h (h ++ [o]).
Proof.
  split_and!.
  - rewrite length_app. lia.
  - intros l o' Hl. exists o'. split; [by apply lookup_app_l_Some|].
    apply ToLong_obj_kept_refl.
  - intros l t Hr. exists t.
    split; [by apply ToLong_repr_app|apply ToLong_evolves_refl].
Qed.

(** The containers a list of references holds, in a later store. *)
Lemma ToLong_heap_le_items h h' items titems :
  ToLong.heap_le h h' →
  Forall2 (ToLong.repr h) items titems →
  ∃ titems', Forall2 (ToLong.repr h') items titems' ∧
             Forall2 ToLong.evolves titems titems'.
Proof.
  intros (_ & _ & Hrep) Hitems.
  apply (Forall2_exists_r _ _ _ _ _ Hitems).
  apply Forall_forall. intros t _ x Hx. by apply Hrep.
Qed.

(** *** Dictionary items *)

Lemma ToLong_dict_get_middle items1 k v items2 :
  k ∉ items1.*1 →
  ToLong.dict_get (items1 ++ (k, v) :: items2) k = Ok v.
Proof.
  induction items1 as [|[k1 v1] items1 IH]; simpl; intros Hk.
  - by rewrite String.eqb_refl.
  - apply not_elem_of_cons in Hk as [Hne Hk].
    destruct (String.eqb_spec k1 k) as [->|_]; [done|]. by apply IH.
Qed.

Lemma ToLong_dict_set_middle items1 k v v' items2 :
  k ∉ items1.*1 →
  ToLong.dict_set (items1 ++ (k, v) :: items2) k v'
  = items1 ++ (k, v') :: items2.
Proof.
  induction items1 as [|[k1 v1] items1 IH]; simpl; intros Hk.
  - by rewrite String.eqb_refl.
  - apply not_elem_of_cons in Hk as [Hne Hk].
    destruct (String.eqb_spec k1 k) as [->|_]; [done|]. by rewrite IH.
Qed.

Lemma ToLong_repr_items_keys h (items : list (string * nat))
    (titems : list (string * ToLong.tree)) :
  Forall2 (λ kv kt, kv.1 = kt.1 ∧ ToLong.repr h kv.2 kt.2) items titems →
  items.*1 = titems.*1.
Proof.
  induction 1 as [|[k x] [k' t] items titems [Hk _] _ IH]; [done|].
  rewrite !fmap_cons. simpl in Hk. by f_equal.
Qed.

(** *** Writing an item of a dictionary *)

Lemma ToLong_tsize_dict_middle titems1 k c titems2 :
  ToLong.tsize (ToLong.TDict (titems1 ++ (k, c) :: titems2))
  = S (sum_list_with (λ kt, ToLong.tsize kt.2) titems1 + ToLong.tsize c
       + sum_list_with (λ kt, ToLong.tsize kt.2) titems2).
Proof. rewrite ToLong_tsize_dict, sum_list_with_app. simpl. lia. Qed.

Section heap_write.
Context (h : list ToLong.obj) (l : nat).
Context (items1 items2 : list (string * nat)) (k : string) (v v' : nat).
Context (titems1 titems2 : list (string * ToLong.tree)) (c c' : ToLong.tree).
Context (Hl : h !! l = Some (ToLong.ODict (items1 ++ (k, v) :: items2))).
Context (HD : ToLong.repr h l (ToLong.TDict (titems1 ++ (k, c) :: titems2))).
Context (Hlen : length items1 = length titems1).
Context (Hv' : ToLong.repr h v' c').
Context (Hev : ToLong.evolves c c').

Let h' := <[l := ToLong.ODict (items1 ++ (k, v') :: items2)]> h.
Let D := ToLong.TDict (titems1 ++ (k, c) :: titems2).
Let D' := ToLong.TDict (titems1 ++ (k, c') :: titems2).

Lemma ToLong_heap_write_parts :
  Forall2 (λ kv kt, kv.1 = kt.1 ∧ ToLong.repr h kv.2 kt.2) items1 titems1 ∧
  Forall2 (λ kv kt, kv.1 = kt.1 ∧ ToLong.repr h kv.2 kt.2) items2 titems2 ∧
  NoDup (titems1 ++ (k, c) :: titems2).*1.
Proof using Hl HD Hlen.
  inversion HD as [? items ? Hl' Hitems Hnd| | | |]; subst.
  assert (items = items1 ++ (k, v) :: items2) as -> by congruence.
  apply Forall2_app_inv in Hitems as [H1 H2]; [|done].
  apply Forall2_cons_1 in H2 as [_ H2]. done.
Qed.

Lemma ToLong_heap_write_small x d :
  ToLong.repr h x d → ToLong.tsize d < ToLong.tsize D →
  ToLong.repr h' x d.
Proof using HD.
  intros Hx Hsize. by apply ToLong_repr_update with D.
Qed.

Lemma ToLong_heap_write_repr : ToLong.repr h' l D'.
Proof using All.
  destruct ToLong_heap_write_parts as (H1 & H2 & Hnd).
  pose proof (ToLong_evolves_tsize _ _ Hev) as Hsize.
  apply ToLong.repr_dict with (items1 ++ (k, v') :: items2).
  - unfold h'. apply list_lookup_insert_eq. by apply lookup_lt_Some in Hl.
  - apply Forall2_app; [|constructor].
    + apply (Forall2_impl_Forall_r _ _ _ _ H1). apply Forall_forall.
      intros kt Hin kv [Hk Hr]. split; [done|].
      apply ToLong_heap_write_small; [done|].
      apply ToLong_tsize_dict_elem. apply elem_of_app. by left.
    + split; [done|]. simpl. apply ToLong_heap_write_small; [done|].
      unfold D. rewrite ToLong_tsize_dict_middle. lia.
    + apply (Forall2_impl_Forall_r _ _ _ _ H2). apply Forall_forall.
      intros kt Hin kv [Hk Hr]. split; [done|].
      apply ToLong_heap_write_small; [done|].
      apply ToLong_tsize_dict_elem. apply elem_of_app. right.
      by apply list_elem_of_further.
  - by rewrite fmap_app in *.
Qed.

Lemma ToLong_heap_write_evolves : ToLong.evolves D D'.
Proof using Hev.
  apply ToLong.ev_dict. apply Forall2_app; [|constructor].
  - apply Forall_Forall2_diag, Forall_forall. intros kt _.
    split; [done|apply ToLong_evolves_refl].
  - by split.
  - apply Forall_Forall2_diag, Forall_forall. intros kt _.
    split; [done|apply ToLong_evolves_refl].
Qed.

Lemma ToLong_heap_write_all x t :
  ToLong.repr h x t → ∃ t', ToLong.repr h' x t' ∧ ToLong.evolves t t'.
Proof using All.
  revert x.
  induction t as [titems IH|titems IH|titems IH|t|tag] using ToLong_tree_ind;
    intros x Hr;
    (destruct (decide (x = l)) as [->|Hne];
     [pose proof (ToLong_repr_functional _ _ _ _ HD Hr) as Heq;
      rewrite <- Heq; exists D'; split;
      [apply ToLong_heap_write_repr|apply ToLong_heap_write_evolves]|]);
    try done;
    inversion Hr as [? items ? Hx Hitems Hnd|? items ? Hx Hitems
                     |? items ? Hx Hitems|? ? Hx|? ? Hx]; subst.
  - destruct (Forall2_exists_r _
                (λ kv kt, kv.1 = kt.1 ∧ ToLong.repr h' kv.2 kt.2)
                (λ kt kt', kt.1 = kt'.1 ∧ ToLong.evolves kt.2 kt'.2)
                _ _ Hitems) as (titems' & Hitems' & Hevs).
    { apply (Forall_impl _ _ _ IH). intros [k0 t0] IHt [k1 x1] [Hk Hx1].
      simpl in *. destruct (IHt x1 Hx1) as (t' & Ht' & He).
      exists (k0, t'). by split_and!. }
    exists (ToLong.TDict titems'). split; [|by apply ToLong.ev_dict].
    apply ToLong.repr_dict with items;
      [by unfold h'; rewrite list_lookup_insert_ne|done|].
    by rewrite (ToLong_evolves_keys _ _ Hevs).
  - destruct (Forall2_exists_r _ (ToLong.repr h') ToLong.evolves _ _ Hitems)
      as (titems' & Hitems' & Hevs).
    { apply (Forall_impl _ _ _ IH). intros t0 IHt x1 Hx1. by apply IHt. }
    exists (ToLong.TList titems'). split; [|by apply ToLong.ev_list].
    apply ToLong.repr_list with items;
      [by unfold h'; rewrite list_lookup_insert_ne|done].
  - destruct (Forall2_exists_r _ (ToLong.repr h') ToLong.evolves _ _ Hitems)
      as (titems' & Hitems' & Hevs).
    { apply (Forall_impl _ _ _ IH). intros t0 IHt x1 Hx1. by apply IHt. }
    exists (ToLong.TTuple titems'). split; [|by apply ToLong.ev_tuple].
    apply ToLong.repr_tuple with items;
      [by unfold h'; rewrite list_lookup_insert_ne|done].
  - exists (ToLong.TTensor t). split; [|apply ToLong.ev_tensor].
    apply ToLong.repr_tensor. by unfold h'; rewrite list_lookup_insert_ne.
  - exists (ToLong.TOther tag). split; [|apply ToLong.ev_other].
    apply ToLong.repr_other. by unfold h'; rewrite list_lookup_insert_ne.
Qed.

Lemma ToLong_heap_write_le : ToLong.heap_le h h'.
Proof using All.
  split_and!.
  - unfold h'. by rewrite length_insert.
  - intros x o Hx. destruct (decide (x = l)) as [->|Hne].
    + exists (ToLong.ODict (items1 ++ (k, v') :: items2)). split.
      * unfold h'. apply list_lookup_insert_eq. by apply lookup_lt_Some in Hl.
      * assert (o = ToLong.ODict (items1 ++ (k, v) :: items2)) as ->
          by congruence.
        simpl. eexists. split; [done|]. by rewrite !fmap_app.
    + exists o. split; [|apply ToLong_obj_kept_refl].
      by unfold h'; rewrite list_lookup_insert_ne.
  - apply ToLong_heap_write_all.
Qed.

End heap_write.

(** *** The loops of [to_long] *)

Lemma ToLong_converted_items_stable (done done' : list (string * ToLong.tree)) :
  Forall (λ kt, ToLong.convert kt.2 = kt.2) done →
  Forall2 (λ kt kt', kt.1 = kt'.1 ∧ ToLong.evolves kt.2 kt'.2) done done' →
  done' = done.
Proof.
  intros Hdone Hev. revert Hdone.
  induction Hev as [|[k t] [k' t'] done done' [Hk Ht] _ IH]; intros Hdone;
    [done|].
  apply Forall_cons in Hdone as [Hc Hdone]. simpl in *. subst k'.
  rewrite <- Hc in Ht. apply ToLong_evolves_converted in Ht.
  rewrite Ht, Hc. by rewrite IH.
Qed.

Lemma ToLong_evolves_items_convert (todo todo' : list (string * ToLong.tree)) :
  Forall2 (λ kt kt', kt.1 = kt'.1 ∧ ToLong.evolves kt.2 kt'.2) todo todo' →
  map (λ '(k, t), (k, ToLong.convert t)) todo'
  = map (λ '(k, t), (k, ToLong.convert t)) todo.
Proof.
  induction 1 as [|[k t] [k' t'] todo todo' [Hk Ht] _ IH]; simpl in *;
    [done|].
  subst k'. by rewrite (ToLong_evolves_convert _ _ Ht), IH.
Qed.

Lemma ToLong_evolves_list_convert (ts ts' : list ToLong.tree) :
  Forall2 ToLong.evolves ts ts' →
  map ToLong.convert ts' = map ToLong.convert ts.
Proof.
  induction 1 as [|t t' ts ts' Ht _ IH]; simpl; [done|].
  by rewrite (ToLong_evolves_convert _ _ Ht), IH.
Qed.

Lemma ToLong_list_loop_ok fuel :
  ToLong.rec_ok fuel →
  ∀ items titems h,
    Forall2 (ToLong.repr h) items titems →
    Forall (λ t, ToLong.tsize t ≤ fuel) titems →
    ∃ h' items',
      ToLong.list_loop (ToLong.to_long fuel) items h = Ok (h', items') ∧
      Forall2 (ToLong.repr h') items' (map ToLong.convert titems) ∧
      ToLong.heap_le h h'.
Proof.
  intros Hrec. induction items as [|x items IH]; intros titems h Hitems Hsize.
  - apply Forall2_nil_inv_l in Hitems as ->. exists h, []. simpl.
    split_and!; [done|constructor|apply ToLong_heap_le_refl].
  - apply Forall2_cons_inv_l in Hitems as (t & titems0 & Hx & Hitems & ->).
    apply Forall_cons in Hsize as [Ht Hsize].
    destruct (Hrec h x t Ht Hx) as (h1 & x' & Hcall & Hx' & Hle1 & _).
    destruct (ToLong_heap_le_items _ _ _ _ Hle1 Hitems)
      as (titems1 & Hitems1 & Hevs).
    destruct (IH titems1 h1 Hitems1) as (h2 & items' & Hloop & Hitems' & Hle2).
    { clear -Hevs Hsize. induction Hevs as [|t t' ts ts' Ht _ IHts];
        [constructor|].
      apply Forall_cons in Hsize as [Hs Hsize]. constructor; [|by apply IHts].
      by rewrite (ToLong_evolves_tsize _ _ Ht). }
    exists h2, (x' :: items'). simpl. rewrite Hcall. simpl. rewrite Hloop. simpl.
    split_and!; [done| |by apply ToLong_heap_le_trans with h1].
    constructor.
    + destruct Hle2 as (_ & _ & Hrep2).
      destruct (Hrep2 x' _ Hx') as (t'' & Hx'' & Hev).
      by apply ToLong_evolves_converted in Hev as ->.
    + by rewrite <- (ToLong_evolves_list_convert _ _ Hevs).
Qed.

Lemma ToLong_dict_loop_ok fuel l :
  ToLong.rec_ok fuel →
  ∀ n todo done h,
    length todo = n →
    Forall (λ kt, ToLong.convert kt.2 = kt.2) done →
    ToLong.repr h l (ToLong.TDict (done ++ todo)) →
    ToLong.tsize (ToLong.TDict (done ++ todo)) ≤ S fuel →
    ∃ h',
      ToLong.dict_loop (ToLong.to_long fuel) todo.*1 l h = Ok h' ∧
      ToLong.repr h' l
        (ToLong.TDict (done ++ map (λ '(k, t), (k, ToLong.convert t)) todo)) ∧
      ToLong.heap_le h h'.
Proof.
  intros Hrec. induction n as [|n IH]; intros todo done h Hn Hdone Hr Hsize.
  - destruct todo; [|done]. exists h. simpl. rewrite app_nil_r in *.
    split_and!; [done|done|apply ToLong_heap_le_refl].
  - destruct todo as [|[k c] todo]; [done|]. simpl in Hn.
    injection Hn as Hn.
    (* the dictionary before the call *)
    inversion Hr as [? items ? Hl Hitems Hnd| | | |]; subst.
    apply Forall2_app_inv_r in Hitems as (items1 & items2' & H1 & H2 & ->).
    apply Forall2_cons_inv_r in H2 as ([k' v] & items2 & [Hk Hv] & H2 & ->).
    simpl in Hk, Hv. subst k'.
    assert (Hfresh : k ∉ done.*1).
    { rewrite fmap_app in Hnd. simpl in Hnd.
      apply NoDup_app in Hnd as (_ & Hnd & _). intros Hin.
      apply (Hnd k Hin). apply list_elem_of_here. }
    assert (Hkeys1 : items1.*1 = done.*1)
      by apply (ToLong_repr_items_keys _ _ _ H1).
    simpl. rewrite Hl.
    rewrite ToLong_dict_get_middle by (by rewrite Hkeys1). simpl.
    (* the recursive call *)
    rewrite ToLong_tsize_dict_middle in Hsize.
    destruct (Hrec h v c) as (h1 & v' & Hcall & Hv' & Hle1 & _); [lia|done|].
    rewrite Hcall. simpl.
    (* the dictionary after the call *)
    destruct (proj2 (proj2 Hle1) l _ Hr) as (D1 & HD1 & HevD).
    apply ToLong_evolves_dict_inv in HevD as (titems1 & -> & Hevs).
    apply Forall2_app_inv_l in Hevs as (done1 & rest1 & Hd & Hrest & ->).
    apply Forall2_cons_inv_l in Hrest
      as ([k1 c1] & todo1 & [Hk1 Hc1] & Htodo & ->).
    simpl in Hk1, Hc1. subst k1.
    apply (ToLong_converted_items_stable _ _ Hdone) in Hd. subst done1.
    inversion HD1 as [? items' ? Hl1 Hitems' Hnd1| | | |]; subst.
    apply Forall2_app_inv_r in Hitems' as (i1 & i2' & Hi1 & Hi2 & ->).
    apply Forall2_cons_inv_r in Hi2 as ([k' v1] & i2 & [Hk Hv1] & Hi2 & ->).
    simpl in Hk, Hv1. subst k'.
    assert (Hkeys1' : i1.*1 = done.*1)
      by apply (ToLong_repr_items_keys _ _ _ Hi1).
    rewrite Hl1.
    rewrite ToLong_dict_set_middle by (by rewrite Hkeys1').
    (* the write *)
    assert (Hev1 : ToLong.evolves c1 (ToLong.convert c)).
    { rewrite <- (ToLong_evolves_convert _ _ Hc1). apply ToLong.ev_convert. }
    assert (Hlen1 : length i1 = length done)
      by apply (Forall2_length _ _ _ Hi1).
    pose proof (ToLong_heap_write_repr h1 l i1 i2 k v1 v' done todo1 c1
                  (ToLong.convert c) Hl1 HD1 Hlen1 Hv' Hev1) as Hr2.
    pose proof (ToLong_heap_write_le h1 l i1 i2 k v1 v' done todo1 c1
                  (ToLong.convert c) Hl1 HD1 Hlen1 Hv' Hev1) as Hle2.
    pose proof (ToLong_heap_write_evolves k done todo1 c1
                  (ToLong.convert c) Hev1) as Hev2.
    set (h2 := <[l := ToLong.ODict (i1 ++ (k, v') :: i2)]> h1) in *.
    (* the rest of the loop *)
    destruct (IH todo1 (done ++ [(k, ToLong.convert c)]) h2)
      as (h' & Hloop & Hr' & Hle').
    + apply Forall2_length in Htodo. lia.
    + apply Forall_app. split; [done|]. constructor; [|constructor].
      simpl. apply ToLong_convert_idem.
    + by rewrite <- app_assoc.
    + rewrite <- app_assoc, <- cons_middle.
      rewrite (ToLong_evolves_tsize _ _ Hev2).
      assert (Hev0 : ToLong.evolves
                (ToLong.TDict (done ++ (k, c) :: todo))
                (ToLong.TDict (done ++ (k, c1) :: todo1))).
      { apply ToLong.ev_dict. apply Forall2_app; [|by constructor].
        apply Forall_Forall2_diag, Forall_forall. intros kt _.
        split; [done|apply ToLong_evolves_refl]. }
      rewrite (ToLong_evolves_tsize _ _ Hev0).
      rewrite ToLong_tsize_dict_middle. lia.
    + exists h'. split_and!.
      * by rewrite (ToLong_evolves_keys _ _ Htodo) in Hloop.
      * rewrite <- app_assoc, <- cons_middle in Hr'.
        by rewrite (ToLong_evolves_items_convert _ _ Htodo) in Hr'.
      * apply ToLong_heap_le_trans with h1; [done|].
        by apply ToLong_heap_le_trans with h2.
Qed.

(** *** [to_long] on a store *)

Lemma ToLong_to_long_S fuel h data :
  ToLong.to_long (S fuel) h data
  = rbind
      (match h !! data with
       | Some (ToLong.ODict items) =>
           h ←? ToLong.dict_loop (ToLong.to_long fuel) items.*1 data h;
           Ok (h, data)
       | _ => Ok (h, data)
       end)
      (λ '(h, data),
        rbind
          (match h !! data with
           | Some (ToLong.OList items) | Some (ToLong.OTuple items) =>
               rbind (ToLong.list_loop (ToLong.to_long fuel) items h)
                     (λ '(h, items'), Ok (ToLong.alloc h (ToLong.OList items')))
           | _ => Ok (h, data)
           end)
          (λ '(h, data),
            match h !! data with
            | Some (ToLong.OTensor (ToLong.IntTensor ToLong.Int16 elems)) =>
                Ok (ToLong.alloc h
                      (ToLong.OTensor (ToLong.IntTensor ToLong.Int64 elems)))
            | _ => Ok (h, data)
            end)).
Proof. reflexivity. Qed.

Lemma ToLong_lookup_alloc (h : list ToLong.obj) o :
  (h ++ [o]) !! length h = Some o.
Proof. by apply list_lookup_middle. Qed.

Lemma ToLong_sizes_list fuel titems :
  sum_list_with ToLong.tsize titems ≤ fuel →
  Forall (λ t, ToLong.tsize t ≤ fuel) titems.
Proof.
  intros Hsum. apply Forall_forall. intros t Hin.
  pose proof (sum_list_with_elem ToLong.tsize titems t Hin). lia.
Qed.

(** A list or a tuple: the items are converted and put into a new list. *)
Lemma ToLong_sequence_ok fuel h l items titems :
  ToLong.rec_ok fuel →
  (h !! l = Some (ToLong.OList items) ∨ h !! l = Some (ToLong.OTuple items)) →
  Forall2 (ToLong.repr h) items titems →
  sum_list_with ToLong.tsize titems ≤ fuel →
  ∃ h' l',
    ToLong.to_long (S fuel) h l = Ok (h', l') ∧
    ToLong.repr h' l' (ToLong.TList (map ToLong.convert titems)) ∧
    ToLong.heap_le h h' ∧
    ToLong.returned h l h' l'.
Proof.
  intros Hrec Hl Hitems Hsize.
  destruct (ToLong_list_loop_ok fuel Hrec items titems h Hitems)
    as (h1 & items' & Hloop & Hitems' & Hle1);
    [by apply ToLong_sizes_list|].
  exists (h1 ++ [ToLong.OList items']), (length h1).
  assert (Hcall : ToLong.to_long (S fuel) h l
                  = Ok (h1 ++ [ToLong.OList items'], length h1)).
  { rewrite ToLong_to_long_S.
    destruct Hl as [Hl|Hl]; rewrite Hl; simpl; rewrite Hl, Hloop; simpl;
      by rewrite ToLong_lookup_alloc. }
  split_and!; [done|..].
  - apply ToLong.repr_list with items'; [apply ToLong_lookup_alloc|].
    apply (Forall2_impl _ _ _ _ Hitems'). intros x t.
    apply ToLong_repr_app.
  - apply ToLong_heap_le_trans with h1; [done|apply ToLong_heap_le_alloc].
  - assert (Hfresh : h !! length h1 = None).
    { apply lookup_ge_None_2. by destruct Hle1 as (Hlen & _). }
    unfold ToLong.returned.
    destruct Hl as [Hl|Hl]; rewrite Hl; (split; [done|]);
      exists items'; apply ToLong_lookup_alloc.
Qed.

Lemma ToLong_rec_ok_all fuel : ToLong.rec_ok fuel.
Proof.
  induction fuel as [|fuel IH]; intros h l t Hsize Hr.
  { pose proof (ToLong_tsize_pos t). lia. }
  inversion Hr as [? items titems Hl Hitems Hnd|? items titems Hl Hitems
                   |? items titems Hl Hitems|? ten Hl|? tag Hl]; subst.
  - (* a dictionary: its items are converted in place *)
    destruct (ToLong_dict_loop_ok fuel l IH (length titems) titems [] h)
      as (h1 & Hloop & Hr1 & Hle1); [done|constructor|done|done|].
    simpl in Hr1.
    exists h1, l. split_and!; [|done|done|].
    + rewrite ToLong_to_long_S, Hl.
      rewrite (ToLong_repr_items_keys _ _ _ Hitems), Hloop. simpl.
      inversion Hr1 as [? items1 ? Hl1 _ _| | | |]; subst.
      rewrite Hl1. simpl. by rewrite Hl1.
    + unfold ToLong.returned. by rewrite Hl.
  - (* a list *)
    rewrite ToLong_tsize_list in Hsize.
    apply (ToLong_sequence_ok fuel h l items titems); [done|by left|done|lia].
  - (* a tuple *)
    rewrite ToLong_tsize_tuple in Hsize.
    apply (ToLong_sequence_ok fuel h l items titems); [done|by right|done|lia].
  - (* a tensor *)
    destruct ten as [dt elems|elems]; [destruct dt|].
    2:{ exists (h ++ [ToLong.OTensor (ToLong.IntTensor ToLong.Int64 elems)]),
               (length h).
        split_and!.
        - rewrite ToLong_to_long_S. by repeat (rewrite Hl; simpl).
        - apply ToLong.repr_tensor. apply ToLong_lookup_alloc.
        - apply ToLong_heap_le_alloc.
        - unfold ToLong.returned. rewrite Hl. split; [|done].
          by apply lookup_ge_None_2. }
    all: exists h, l; split_and!;
      [ rewrite ToLong_to_long_S; by repeat (rewrite Hl; simpl)
      | by apply ToLong.repr_tensor
      | apply ToLong_heap_le_refl
      | unfold ToLong.returned; by rewrite Hl ].
  - (* anything else *)
    exists h, l. split_and!.
    + rewrite ToLong_to_long_S. by repeat (rewrite Hl; simpl).
    + by apply ToLong.repr_other.
    + apply ToLong_heap_le_refl.
    + unfold ToLong.returned. by rewrite Hl.
Qed.

(** C9: on a reference holding a nested container of mappings, sequences
    and leaves, [to_long] (with enough fuel for the depth of the container)
    returns a reference holding the same container in which exactly the
    16-bit integer tensors have become 64-bit integer tensors with the same
    elements, every other leaf being as it was and the shape (mappings with
    their keys, sequences with their lengths) being kept; called on a
    mapping it returns that very mapping, updated in place; called on a
    sequence it returns a newly built list and leaves the given sequence
    object as it was. *)
Theorem to_long_widens (h : list ToLong.obj) (l : nat) (t : ToLong.tree)
    (fuel : nat) :
  ToLong.repr h l t →
  ToLong.tsize t ≤ fuel →
  ∃ h' l',
    ToLong.to_long fuel h l = Ok (h', l') ∧
    ToLong.repr h' l' (ToLong.convert t) ∧
    ToLong.shape_of (ToLong.convert t) = ToLong.shape_of t ∧
    ToLong.leaves (ToLong.convert t)
      = map ToLong.convert_leaf (ToLong.leaves t) ∧
    (∀ elems,
       ToLong.convert_leaf (ToLong.TTensor (ToLong.IntTensor ToLong.Int16 elems))
       = ToLong.TTensor (ToLong.IntTensor ToLong.Int64 elems)) ∧
    (∀ leaf,
       (∀ elems,
          leaf ≠ ToLong.TTensor (ToLong.IntTensor ToLong.Int16 elems)) →
       ToLong.convert_leaf leaf = leaf) ∧
    (∀ items, h !! l = Some (ToLong.ODict items) →
       l' = l ∧
       ∃ items', h' !! l = Some (ToLong.ODict items') ∧
                 items'.*1 = items.*1) ∧
    (∀ items,
       h !! l = Some (ToLong.OList items) ∨
       h !! l = Some (ToLong.OTuple items) →
       h !! l' = None ∧
       (∃ items', h' !! l' = Some (ToLong.OList items')) ∧
       h' !! l = h !! l) ∧
    (∀ x o, h !! x = Some o →
       ∃ o', h' !! x = Some o' ∧ ToLong.obj_kept o o').
Proof.
  intros Hr Hsize.
  destruct (ToLong_rec_ok_all fuel h l t Hsize Hr)
    as (h' & l' & Hcall & Hr' & (Hlen & Hobj & Hrep) & Hret).
  exists h', l'. split_and!; [done|done|..|done].
  - apply ToLong_shape_convert.
  - apply ToLong_leaves_convert.
  - done.
  - intros [| | |[[] ?|?]|] Hleaf; try done. by destruct (Hleaf elems).
  - intros items Hl. unfold ToLong.returned in Hret. rewrite Hl in Hret.
    split; [done|]. destruct (Hobj l _ Hl) as (o' & Hl' & Hk).
    simpl in Hk. destruct Hk as (items' & -> & Hk). by exists items'.
  - intros items Hl. unfold ToLong.returned in Hret.
    destruct Hl as [Hl|Hl]; rewrite Hl in Hret; destruct Hret as [Hfresh Hnew];
      (split_and!; [done|done|]);
      destruct (Hobj l _ Hl) as (o' & Hl' & Hk); simpl in Hk; congruence.
Qed.

Lemma ToLong_sample_repr : ToLong.repr ToLong.sample 0 ToLong.sample_tree.
Proof.
  apply ToLong.repr_dict with [("a", 1); ("b", 2)]; [done| |].
  - constructor; [|constructor; [|constructor]].
    + split; [done|]. by apply ToLong.repr_tensor.
    + split; [done|]. apply ToLong.repr_tuple with [1; 3]; [done|].
      constructor; [by apply ToLong.repr_tensor|].
      constructor; [by apply ToLong.repr_tensor|constructor].
  - apply NoDup_cons. split; [|apply NoDup_singleton].
    by intros ?%list_elem_of_singleton.
Defined.

Lemma to_long_widens_witness :
  ToLong.repr ToLong.sample 0 ToLong.sample_tree ∧
  ToLong.tsize ToLong.sample_tree ≤ 6 ∧
  ∃ h' l',
    ToLong.to_long 6 ToLong.sample 0 = Ok (h', l') ∧
    ToLong.repr h' l' (ToLong.convert ToLong.sample_tree) ∧
    l' = 0.
Proof.
  split; [exact ToLong_sample_repr|]. split; [simpl; lia|].
  destruct (to_long_widens ToLong.sample 0 ToLong.sample_tree 6
              ToLong_sample_repr ltac:(simpl; lia))
    as (h' & l' & Hcall & Hr' & _ & _ & _ & _ & Hdict & _).
  exists h', l'. split; [exact Hcall|]. split; [exact Hr'|].
  exact (proj1 (Hdict _ eq_refl)).
Defined.

Example to_long_run :
  ToLong.to_long 6 ToLong.sample 0
  = Ok ([ ToLong.ODict [("a", 4); ("b", 6)];
          ToLong.OTensor (ToLong.IntTensor ToLong.Int16 [1; 2]%Z);
          ToLong.OTuple [1; 3];
          ToLong.OTensor (ToLong.FloatTensor [1%float]);
          ToLong.OTensor (ToLong.IntTensor ToLong.Int64 [1; 2]%Z);
          ToLong.OTensor (ToLong.IntTensor ToLong.Int64 [1; 2]%Z);
          ToLong.OList [5; 3] ], 0).
Proof. reflexivity. Qed.

(** Without enough fuel the recursion limit is hit. *)
Example to_long_recursion_limit :
  ToLong.to_long 2 ToLong.sample 0 = Raise RecursionError.
Proof. reflexivity. Qed.

(** * Further properties of the code *)

(** ** [merge_dict] *)

Section merge_dict_facts.
Context {K : Type} `{Countable K} {V : Type}.

Lemma MergeDict_loop_Ok (keys : list K) (st : MergeDict.locals (K:=K) (V:=V)) :
  (∀ key, key ∈ keys → is_Some (MergeDict.ds st !! key)) →
  ∃ st',
    MergeDict.loop keys st = Ok st' ∧
    MergeDict.ds st' = MergeDict.ds st ∧
    ∀ key,
      MergeDict.dt st' !! key
      = if decide (key ∈ keys) then MergeDict.ds st !! key
        else MergeDict.dt st !! key.
Proof.
  revert st. induction keys as [|k keys IH]; intros st Hall.
  - exists st. split_and!; [done..|]. intros key.
    by rewrite decide_False by apply not_elem_of_nil.
  - destruct (Hall k) as [value Hk]; [apply list_elem_of_here|].
    cbn [MergeDict.loop]. unfold MergeDict.body. rewrite Hk.
    cbn [rbind].
    set (st1 := MergeDict.mk _ _).
    destruct (IH st1) as (st' & Hloop & Hds & Hdt).
    { intros key Hkey. apply Hall. by apply list_elem_of_further. }
    exists st'. split_and!; [done|done|].
    intros key. rewrite Hdt. unfold st1. cbn [MergeDict.ds MergeDict.dt].
    destruct (decide (key ∈ keys)) as [Hin|Hin].
    + rewrite decide_True; [done|]. by apply list_elem_of_further.
    + destruct (decide (key = k)) as [->|Hne].
      * rewrite decide_True by apply list_elem_of_here.
        by rewrite lookup_insert_eq.
      * rewrite decide_False by (by intros [?|?]%elem_of_cons).
        by rewrite lookup_insert_ne.
Qed.

Lemma MergeDict_run_Ok (ds dt : gmap K V) :
  MergeDict.run ds dt = Ok (MergeDict.mk ds (ds ∪ dt)).
Proof.
  unfold MergeDict.run.
  destruct (MergeDict_loop_Ok (map_to_list ds).*1 (MergeDict.mk ds dt))
    as ([ds' dt'] & Hloop & Hds & Hdt).
  { intros key ((k & value) & -> & Hkv)%list_elem_of_fmap. simpl.
    apply elem_of_map_to_list in Hkv. by exists value. }
  simpl in *. rewrite Hloop. do 2 f_equal; [done|].
  apply map_eq. intros key. rewrite Hdt.
  destruct (ds !! key) as [value|] eqn:Hkey.
  - rewrite (lookup_union_Some_l _ _ _ _ Hkey).
    rewrite decide_True; [done|].
    apply list_elem_of_fmap. exists (key, value). split; [done|].
    by apply elem_of_map_to_list.
  - rewrite (lookup_union_r _ _ _ Hkey).
    rewrite decide_False; [done|].
    intros ((k & value) & -> & Hkv)%list_elem_of_fmap.
    apply elem_of_map_to_list in Hkv. simpl in Hkey. congruence.
Qed.

End merge_dict_facts.

(** X1: [merge_dict(ds, dt)] never raises, leaves [ds] as it was and
    leaves in [dt] the value of [ds] under every key of [ds] and the prior
    value of [dt] under every other key. *)
Theorem merge_dict_overwrites {K : Type} `{Countable K} {V : Type}
    (ds dt : gmap K V) :
  ∃ st,
    MergeDict.run ds dt = Ok st ∧
    MergeDict.ds st = ds ∧
    MergeDict.merge_dict ds dt = Ok (MergeDict.dt st) ∧
    dom (MergeDict.dt st) = dom ds ∪ dom dt ∧
    (∀ key value, ds !! key = Some value →
                  MergeDict.dt st !! key = Some value) ∧
    (∀ key, ds !! key = None → MergeDict.dt st !! key = dt !! key).
Proof.
  exists (MergeDict.mk ds (ds ∪ dt)). simpl.
  unfold MergeDict.merge_dict. rewrite MergeDict_run_Ok. simpl.
  split_and!; [done|done|done|..].
  - apply dom_union_L.
  - intros key value Hkey. by apply lookup_union_Some_l.
  - intros key Hkey. by apply lookup_union_r.
Qed.

(** X2: merging the same source again changes nothing, an empty source
    changes nothing, and merging [ds1] and then [ds2] is merging once the
    dictionary made of [ds2] and of the entries of [ds1] under the keys
    [ds2] lacks. *)
Theorem merge_dict_composes {K : Type} `{Countable K} {V : Type}
    (ds1 ds2 dt : gmap K V) :
  (d ←? MergeDict.merge_dict ds1 dt; MergeDict.merge_dict ds1 d)
    = MergeDict.merge_dict ds1 dt ∧
  MergeDict.merge_dict ∅ dt = Ok dt ∧
  (d ←? MergeDict.merge_dict ds1 dt; MergeDict.merge_dict ds2 d)
    = MergeDict.merge_dict (ds2 ∪ ds1) dt.
Proof.
  unfold MergeDict.merge_dict. rewrite !MergeDict_run_Ok. simpl.
  rewrite !MergeDict_run_Ok. simpl. split_and!.
  - by rewrite (assoc_L (∪)), (idemp_L (∪)).
  - by rewrite (left_id_L ∅ (∪)).
  - by rewrite (assoc_L (∪)).
Qed.

Example merge_dict_run :
  MergeDict.merge_dict
    ({[ "a" := 1; "b" := 2 ]} : gmap string nat)
    {[ "b" := 20; "c" := 30 ]}
  = Ok {[ "a" := 1; "b" := 2; "c" := 30 ]}.
Proof. vm_compute. reflexivity. Qed.

(** ** [gpu] *)

Section value_induction.
Variable P : Gpu.value → Prop.
Hypothesis Hlist : ∀ items, Forall P items → P (Gpu.VList items).
Hypothesis Htuple : ∀ items, Forall P items → P (Gpu.VTuple items).
Hypothesis Hdict :
  ∀ items, Forall (λ kx, P kx.2) items → P (Gpu.VDict items).
Hypothesis Htensor : ∀ t, P (Gpu.VTensor t).
Hypothesis Hother : ∀ tag, P (Gpu.VOther tag).

Fixpoint Gpu_value_ind (data : Gpu.value) : P data :=
  match data with
  | Gpu.VList items =>
      Hlist items
        ((fix go (items : list Gpu.value) : Forall P items :=
            match items with
            | [] => @List.Forall_nil _ _
            | x :: rest => @List.Forall_cons _ P x rest (Gpu_value_ind x) (go rest)
            end) items)
  | Gpu.VTuple items =>
      Htuple items
        ((fix go (items : list Gpu.value) : Forall P items :=
            match items with
            | [] => @List.Forall_nil _ _
            | x :: rest => @List.Forall_cons _ P x rest (Gpu_value_ind x) (go rest)
            end) items)
  | Gpu.VDict items =>
      Hdict items
        ((fix go (items : list (string * Gpu.value))
            : Forall (λ kx, P kx.2) items :=
            match items with
            | [] => @List.Forall_nil _ _
            | (k, x) :: rest =>
                @List.Forall_cons _ (λ kx, P kx.2) (k, x) rest
                                  (Gpu_value_ind x) (go rest)
            end) items)
  | Gpu.VTensor t => Htensor t
  | Gpu.VOther tag => Hother tag
  end.

End value_induction.

Lemma Gpu_map_ext_Forall {A B} (f g : A → B) (l : list A) :
  Forall (λ x, f x = g x) l → map f l = map g l.
Proof. induction 1 as [|x l Hx _ IH]; simpl; [done|]. by rewrite Hx, IH. Qed.

Lemma Gpu_flat_map_ext_Forall {A B} (f g : A → list B) (l : list A) :
  Forall (λ x, f x = g x) l → flat_map f l = flat_map g l.
Proof. induction 1 as [|x l Hx _ IH]; simpl; [done|]. by rewrite Hx, IH. Qed.

Lemma Gpu_flat_map_map {A B C} (f : A → B) (g : B → list C) (l : list A) :
  flat_map g (map f l) = flat_map (λ x, g (f x)) l.
Proof. induction l as [|x l IH]; simpl; [done|]. by rewrite IH. Qed.

Lemma Gpu_map_flat_map {A B C} (f : A → list B) (g : B → C) (l : list A) :
  map g (flat_map f l) = flat_map (λ x, map g (f x)) l.
Proof. induction l as [|x l IH]; simpl; [done|]. by rewrite map_app, IH. Qed.

(** X3: [gpu] keeps the shape of a nested container (the keys of its
    mappings, the lengths of its sequences), returns every tensor leaf on
    the accelerator, contiguous and with the same elements, returns every
    other leaf as it is, and returns lists for all sequences: no tuple is
    left in the result. *)
Theorem gpu_moves_tensors (data : Gpu.value) :
  Gpu.shape_of (Gpu.gpu data) = Gpu.shape_of data ∧
  Gpu.leaves (Gpu.gpu data) = map Gpu.gpu_leaf (Gpu.leaves data) ∧
  Gpu.tuple_free (Gpu.gpu data) = true.
Proof.
  induction data as [items IH|items IH|items IH|t|tag] using Gpu_value_ind;
    simpl; [| | |done..].
  - split_and!.
    + f_equal. rewrite map_map. apply Gpu_map_ext_Forall.
      apply (Forall_impl _ _ _ IH). by intros x (Hx & _ & _).
    + rewrite Gpu_flat_map_map, Gpu_map_flat_map.
      apply Gpu_flat_map_ext_Forall.
      apply (Forall_impl _ _ _ IH). by intros x (_ & Hx & _).
    + rewrite forallb_forall. intros y (x & <- & Hx)%in_map_iff.
      rewrite Forall_forall in IH. apply list_elem_of_In in Hx.
      by destruct (IH x Hx) as (_ & _ & Hy).
  - split_and!.
    + f_equal. rewrite map_map. apply Gpu_map_ext_Forall.
      apply (Forall_impl _ _ _ IH). by intros x (Hx & _ & _).
    + rewrite Gpu_flat_map_map, Gpu_map_flat_map.
      apply Gpu_flat_map_ext_Forall.
      apply (Forall_impl _ _ _ IH). by intros x (_ & Hx & _).
    + rewrite forallb_forall. intros y (x & <- & Hx)%in_map_iff.
      rewrite Forall_forall in IH. apply list_elem_of_In in Hx.
      by destruct (IH x Hx) as (_ & _ & Hy).
  - split_and!.
    + f_equal. rewrite map_map. apply Gpu_map_ext_Forall.
      apply (Forall_impl _ _ _ IH). by intros [k x] (Hx & _ & _); simpl in *; f_equal.
    + rewrite Gpu_flat_map_map, Gpu_map_flat_map.
      apply Gpu_flat_map_ext_Forall.
      apply (Forall_impl _ _ _ IH). by intros [k x] (_ & Hx & _).
    + rewrite forallb_forall. intros [k' y] ([k x] & Heq & Hx)%in_map_iff.
      injection Heq as <- <-.
      rewrite Forall_forall in IH. apply list_elem_of_In in Hx.
      by destruct (IH (k, x) Hx) as (_ & _ & Hy).
Qed.

(** X4: [gpu] is idempotent: data that went through it comes back equal
    from a second call. *)
Theorem gpu_idempotent (data : Gpu.value) :
  Gpu.gpu (Gpu.gpu data) = Gpu.gpu data.
Proof.
  induction data as [items IH|items IH|items IH|t|tag] using Gpu_value_ind;
    simpl; [| | |done..]; f_equal; rewrite map_map;
    apply Gpu_map_ext_Forall; apply (Forall_impl _ _ _ IH).
  - done.
  - done.
  - intros [k x] Hx. simpl in *. by f_equal.
Qed.

Example gpu_run :
  let t := Gpu.mk_tensor Gpu.Cpu false (ToLong.IntTensor ToLong.Int16 [1; 2]%Z) in
  Gpu.gpu (Gpu.VDict [("feats", Gpu.VTuple [Gpu.VTensor t; Gpu.VOther "name"])])
  = Gpu.VDict
      [("feats",
        Gpu.VList
          [Gpu.VTensor
             (Gpu.mk_tensor Gpu.Cuda true (ToLong.IntTensor ToLong.Int16 [1; 2]%Z));
           Gpu.VOther "name"])].
Proof. reflexivity. Qed.

(** ** [Logger] *)

Lemma string_app_assoc (s1 s2 s3 : string) :
  (s1 ++ (s2 ++ s3))%string = ((s1 ++ s2) ++ s3)%string.
Proof.
  induction s1 as [|a s1 IH]; [done|].
  change (String a (s1 ++ (s2 ++ s3))%string = String a ((s1 ++ s2) ++ s3)%string).
  by rewrite IH.
Qed.

Lemma string_app_nil_r (s : string) : (s ++ "")%string = s.
Proof.
  induction s as [|a s IH]; [done|].
  change (String a (s ++ "")%string = String a s). by rewrite IH.
Qed.

Lemma Logger_run_flushed (self : Logger.t) (ops : list Logger.op) :
  Logger.log_buffer self = "" →
  Logger.terminal (Logger.run self ops)
    = (Logger.terminal self ++ Logger.written ops)%string ∧
  Logger.log_contents (Logger.run self ops)
    = (Logger.log_contents self ++ Logger.written ops)%string ∧
  Logger.log_buffer (Logger.run self ops) = "".
Proof.
  revert self. induction ops as [|[message|] ops IH]; intros self Hbuf.
  - simpl. by rewrite !string_app_nil_r.
  - destruct (IH (Logger.write self message) eq_refl) as (Ht & Hc & Hb).
    unfold Logger.run in *. simpl. rewrite Ht, Hc, Hb. simpl.
    rewrite Hbuf. change ("" ++ message)%string with message.
    by rewrite !string_app_assoc.
  - destruct (IH self Hbuf) as (Ht & Hc & Hb).
    unfold Logger.run in *. simpl. unfold Logger.flush.
    by rewrite Ht, Hc, Hb.
Qed.

(** X5: whatever sequence of [write] and [flush] calls a logger receives
    after its construction, the console has received, after what it had
    before, exactly the messages written, in order; the log file holds its
    prior content followed by the same text; and nothing is left in the
    buffer of the file.  The [flush] calls change nothing. *)
Theorem Logger_tees (console existing : string) (ops : list Logger.op) :
  let self := Logger.run (Logger.init console existing) ops in
  Logger.terminal self = (console ++ Logger.written ops)%string ∧
  Logger.log_contents self = (existing ++ Logger.written ops)%string ∧
  Logger.log_buffer self = "" ∧
  Logger.run (Logger.init console existing) (Logger.writes ops) = self.
Proof.
  simpl.
  destruct (Logger_run_flushed (Logger.init console existing) ops eq_refl)
    as (Ht & Hc & Hb).
  split_and!; [done..|].
  generalize (Logger.init console existing). clear.
  induction ops as [|[message|] ops IH]; intros self; [done|..]; apply IH.
Qed.

Example Logger_run_example :
  Logger.run (Logger.init "" "old
")
    [Logger.Write "epoch 1"; Logger.Flush; Logger.Write "
"]
  = Logger.mk "epoch 1
" "old
epoch 1
" "".
Proof. reflexivity. Qed.

(** ** More on IEEE comparisons *)

Lemma F_SFltb_leb_trans a b c :
  SFltb a b = true → SFleb b c = true → SFltb a c = true.
Proof.
  unfold SFltb, SFleb.
  destruct a as [sa|sa| |sa ma ea], b as [sb|sb| |sb mb eb],
           c as [sc|sc| |sc mc ec]; simpl; try done;
    try (by destruct sa); try (by destruct sb); try (by destruct sc);
    try (by destruct sa, sb); try (by destruct sb, sc);
    try (by destruct sa, sc); try (by destruct sa, sb, sc).
  change (PosDef.Pos.compare_cont Eq ma mb) with (ma ?= mb)%positive.
  change (PosDef.Pos.compare_cont Eq mb mc) with (mb ?= mc)%positive.
  change (PosDef.Pos.compare_cont Eq ma mc) with (ma ?= mc)%positive.
  destruct sa, sb, sc; try done;
    destruct (Z.compare_spec ea eb), (Z.compare_spec eb ec),
             (Z.compare_spec ea ec); try done; try lia;
    destruct (Pos.compare_spec ma mb), (Pos.compare_spec mb mc),
             (Pos.compare_spec ma mc); simpl; try done; lia.
Qed.

Lemma F_ltb_leb_trans x y z :
  (x <? y)%float = true → (y <=? z)%float = true → (x <? z)%float = true.
Proof.
  rewrite !FloatAxioms.ltb_spec, FloatAxioms.leb_spec.
  apply F_SFltb_leb_trans.
Qed.

Lemma F_ltb_not_nan x y :
  (x <? y)%float = true → is_nan x = false ∧ is_nan y = false.
Proof.
  intros Hlt. split.
  - destruct (is_nan x) eqn:Hx; [|done].
    by rewrite (F_ltb_nan_l x y Hx) in Hlt.
  - destruct (is_nan y) eqn:Hy; [|done].
    by rewrite (F_ltb_nan_r x y Hy) in Hlt.
Qed.

Lemma F_ltb_irrefl x : (x <? x)%float = false.
Proof.
  destruct (is_nan x) eqn:Hx; [by apply F_ltb_nan_l|].
  apply (F_leb_not_gtb x x). by apply F_leb_refl.
Qed.

(** ** More on the optimizer wrapper *)

(** The two passes, applied twice, do what they do once, whatever the
    bounds. *)
Lemma two_pass_idem low high x :
  two_pass low high (two_pass low high x) = two_pass low high x.
Proof.
  unfold two_pass, F.gtb.
  destruct (x <? low)%float eqn:Hxl.
  - destruct (high <? low)%float eqn:Hhl.
    + by rewrite Hhl, Hhl.
    + by rewrite F_ltb_irrefl, Hhl.
  - destruct (high <? x)%float eqn:Hhx.
    + destruct (high <? low)%float eqn:Hhl; [by rewrite Hhl|].
      by rewrite F_ltb_irrefl.
    + by rewrite Hxl, Hhx.
Qed.

(** With the bounds the wrong way round, the second pass catches whatever
    the first pass produced. *)
Lemma two_pass_inverted low high x :
  (high <? low)%float = true → is_nan x = false →
  two_pass low high x = high.
Proof.
  intros Hhl Hx. destruct (F_ltb_not_nan _ _ Hhl) as [Hhi Hlo].
  unfold two_pass, F.gtb. destruct (x <? low)%float eqn:Hlt.
  - by rewrite Hhl.
  - rewrite (F_ltb_leb_trans high low x Hhl); [done|].
    by apply F_not_ltb_leb.
Qed.

Lemma two_pass_nan low high x : is_nan x = true → two_pass low high x = x.
Proof.
  intros Hx. unfold two_pass, F.gtb.
  by rewrite (F_ltb_nan_l x low Hx), (F_ltb_nan_r high x Hx).
Qed.

(** A second run of the loop body of [clip] on a gradient changes
    nothing. *)
Lemma Optimizer_clip_grad_idem low high g g' :
  Optimizer.clip_grad low high g = Ok g' →
  Optimizer.clip_grad low high g' = Ok g'.
Proof.
  intros Hg. destruct (Optimizer_clip_grad_inv _ _ _ _ Hg) as [Hl Hh].
  rewrite (Optimizer_clip_grad_Ok low high g Hl Hh) in Hg.
  injection Hg as <-.
  rewrite (Optimizer_clip_grad_Ok low high (map_tensor _ g)) by done.
  f_equal. unfold map_tensor. simpl. f_equal. rewrite map_map.
  apply map_ext. intros x. apply two_pass_idem.
Qed.

Lemma Optimizer_clip_param_idem low high p p' :
  Optimizer.clip_param low high p = Ok p' →
  Optimizer.clip_param low high p' = Ok p'.
Proof.
  unfold Optimizer.clip_param. destruct (Torch.grad p) as [g|] eqn:Hg.
  - destruct (Optimizer.clip_grad low high g) as [g'|e] eqn:Hclip; simpl;
      [|done].
    intros [= <-]. simpl.
    by rewrite (Optimizer_clip_grad_idem low high g g' Hclip).
  - intros [= <-]. by rewrite Hg.
Qed.

Lemma for_each_idem {A} (f : A → result A) (l l' : list A) :
  (∀ x y, f x = Ok y → f y = Ok y) →
  for_each f l = Ok l' → for_each f l' = Ok l'.
Proof.
  intros Hidem Hl%for_each_Ok_inv. apply for_each_fixed.
  induction Hl as [|x y l l' Hxy _ IH]; constructor; [|done].
  by apply (Hidem x).
Qed.

Lemma Optimizer_clip_group_idem low high grp grp' :
  Optimizer.clip_group low high grp = Ok grp' →
  Optimizer.clip_group low high grp' = Ok grp'.
Proof.
  unfold Optimizer.clip_group.
  destruct (for_each _ (Torch.params grp)) as [ps|e] eqn:Hps; simpl; [|done].
  intros [= <-]. simpl.
  rewrite (for_each_idem _ _ _ (Optimizer_clip_param_idem low high) Hps).
  done.
Qed.

Section wrapper_facts.
Context {S : Type}.

Lemma Optimizer_clip_idem (self clipped : Optimizer.t S) :
  Optimizer.clip self = Ok clipped → Optimizer.clip clipped = Ok clipped.
Proof.
  unfold Optimizer.clip.
  destruct (Optimizer.clip_low self) as [low|] eqn:Hlow; simpl; [|done].
  destruct (Optimizer.clip_high self) as [high|] eqn:Hhigh; simpl; [|done].
  destruct (for_each _ (Torch.param_groups (Optimizer.opt self)))
    as [groups|e] eqn:Hgroups; simpl; [|done].
  intros [= <-]. simpl. rewrite Hlow, Hhigh. simpl.
  rewrite (for_each_idem _ _ _ (Optimizer_clip_group_idem low high) Hgroups).
  done.
Qed.

Lemma map_grads_grads (f : Dtype.t → float → float) (self : Optimizer.t S) g' :
  g' ∈ Optimizer.grads (map_grads f self) →
  ∃ g, g ∈ Optimizer.grads self ∧ g' = map_tensor f g.
Proof.
  unfold Optimizer.grads, map_grads. simpl.
  intros (grp' & p' & Hgrp' & Hp' & Hg')%Optimizer_grads_of_elem.
  apply list_elem_of_fmap in Hgrp' as (grp & -> & Hgrp). simpl in Hp'.
  apply list_elem_of_fmap in Hp' as (p & -> & Hp). simpl in Hg'.
  destruct (Torch.grad p) as [g|] eqn:Hg; [|done]. injection Hg' as <-.
  exists g. split; [|done]. apply Optimizer_grads_of_elem. by exists grp, p.
Qed.

Lemma Optimizer_inverted_all (self : Optimizer.t S) low high :
  forallb (inverted low high) (Optimizer.grads self) = true →
  ∀ g, g ∈ Optimizer.grads self →
    Dtype.overflows (Torch.dtype g) low = false ∧
    Dtype.overflows (Torch.dtype g) high = false ∧
    (Dtype.cast (Torch.dtype g) high <? Dtype.cast (Torch.dtype g) low)%float
    = true.
Proof.
  intros Hall g Hg%list_elem_of_In.
  pose proof (proj1 (forallb_forall _ _) Hall g Hg) as Hinv.
  unfold inverted in Hinv.
  rewrite !andb_true_iff, !negb_true_iff in Hinv. tauto.
Qed.

End wrapper_facts.

(** X6: clipping is idempotent: with bounds [clip_low ≤ clip_high], calling
    [clip] a second time changes nothing. *)
Theorem Optimizer_clip_idempotent {S : Type} (self : Optimizer.t S)
    (low high : float) :
  Optimizer.clip_low self = Some low →
  Optimizer.clip_high self = Some high →
  (low <=? high)%float = true →
  (clipped ←? Optimizer.clip self; Optimizer.clip clipped)
  = Optimizer.clip self.
Proof.
  intros Hlow Hhigh Hle.
  destruct (Optimizer.clip self) as [clipped|e] eqn:Hclip; simpl; [|done].
  by apply (Optimizer_clip_idem self).
Qed.

Lemma Optimizer_clip_idempotent_witness :
  let self := Descent.clipping [(-3)%float; 0.5%float; 7%float] in
  (Optimizer.clip_low self = Some (-1)%float ∧
   Optimizer.clip_high self = Some 1%float ∧
   ((-1) <=? 1)%float = true) ∧
  (clipped ←? Optimizer.clip self; Optimizer.clip clipped)
  = Optimizer.clip self.
Proof.
  split; [by split_and!|].
  apply (Optimizer_clip_idempotent
           (Descent.clipping [(-3)%float; 0.5%float; 7%float])
           (-1)%float 1%float); reflexivity.
Defined.

(** X7: with the bounds the wrong way round (once converted to the element
    type of each gradient, [clip_high] is below [clip_low]), [clip] sets
    every gradient element that is not NaN to [clip_high] as converted to
    the element type of its gradient: here the two passes are not a
    clamp. *)
Theorem Optimizer_clip_inverted_bounds {S : Type} (self : Optimizer.t S)
    (low high : float) :
  Optimizer.clip_low self = Some low →
  Optimizer.clip_high self = Some high →
  forallb (inverted low high) (Optimizer.grads self) = true →
  ∃ clipped,
    Optimizer.clip self = Ok clipped ∧
    ∀ g', g' ∈ Optimizer.grads clipped →
      ∀ y, y ∈ Torch.elems g' → is_nan y = false →
        y = Dtype.cast (Torch.dtype g') high.
Proof.
  intros Hlow Hhigh Hinv.
  pose proof (Optimizer_inverted_all self low high Hinv) as Hall.
  eexists. split.
  { apply (Optimizer_clip_map_grads self low high Hlow Hhigh).
    intros g Hg. by destruct (Hall g Hg) as (Hl & Hh & _). }
  intros g' (g & Hg & ->)%map_grads_grads y Hy Hnan. simpl in *.
  apply list_elem_of_fmap in Hy as (x & -> & Hx).
  destruct (Hall g Hg) as (_ & _ & Hhl).
  destruct (is_nan x) eqn:Hxn; [|by apply two_pass_inverted].
  by rewrite (two_pass_nan _ _ x Hxn), Hxn in Hnan.
Qed.

Lemma Optimizer_clip_inverted_bounds_witness :
  let self :=
    Optimizer.mk [1%float]
      (Torch.mk_opt
         [Torch.mk_group
            [Torch.mk_param (Torch.tensor [0%float])
               (Some (Torch.tensor [(-3)%float; 0.5%float; 7%float]))]
            0%float] 0)
      StepLR.default true (Some 1%float) (Some (-1)%float) in
  (Optimizer.clip_low self = Some 1%float ∧
   Optimizer.clip_high self = Some (-1)%float ∧
   forallb (inverted 1 (-1)) (Optimizer.grads self) = true) ∧
  ∃ clipped,
    Optimizer.clip self = Ok clipped ∧
    ∀ g', g' ∈ Optimizer.grads clipped →
      ∀ y, y ∈ Torch.elems g' → is_nan y = false →
        y = Dtype.cast (Torch.dtype g') (-1).
Proof.
  split; [split_and!; vm_compute; reflexivity|].
  apply (Optimizer_clip_inverted_bounds
           (Optimizer.mk [1%float]
              (Torch.mk_opt
                 [Torch.mk_group
                    [Torch.mk_param (Torch.tensor [0%float])
                       (Some (Torch.tensor [(-3)%float; 0.5%float; 7%float]))]
                    0%float] 0)
              StepLR.default true (Some 1%float) (Some (-1)%float))
           1%float (-1)%float); vm_compute; reflexivity.
Defined.

Example Optimizer_clip_inverted_run :
  (clipped ←? Optimizer.clip
     (Optimizer.mk [1%float]
        (Torch.mk_opt
           [Torch.mk_group
              [Torch.mk_param (Torch.tensor [0%float])
                 (Some (Torch.tensor [(-3)%float; 0.5%float; 7%float]))]
              0%float] 0)
        StepLR.default true (Some 1%float) (Some (-1)%float));
   Ok (Optimizer.grad_elements clipped))
  = Ok [(-1)%float; (-1)%float; (-1)%float].
Proof. vm_compute. reflexivity. Qed.

(** *** A wrapper as [__init__] leaves it *)

Section training_facts.
Context {S D : Type} {backend : Torch.Backend S D}.

Lemma Training_init_fresh params coef (self : Optimizer.t S) :
  Optimizer.init params coef = Ok self → Training.fresh self.
Proof.
  rewrite Optimizer_init_eq.
  destruct (Torch.adam_state _ _) as [st|e]; simpl; [|done].
  intros [= <-]. by split_and!.
Qed.

Lemma Training_default_rate epoch :
  StepLR.call StepLR.default epoch = Ok (Training.default_rate epoch).
Proof.
  unfold StepLR.call, Training.default_rate. simpl.
  by destruct (epoch <? 32)%Z.
Qed.

(** One step of a wrapper in its initial configuration. *)
Lemma Training_step_fresh (self : Optimizer.t S) epoch :
  Training.keeps_groups →
  Training.fresh self →
  ∃ self',
    Optimizer.step self epoch = Ok (Training.default_rate epoch, self') ∧
    Training.fresh self'.
Proof.
  intros Hkeep (Hcoef & Hfunc & Hclip & Hlow & Hhigh).
  assert (Hlen : length (Torch.param_groups (Optimizer.opt self))
                 ≤ length (Optimizer.coef self)).
  { by rewrite Hcoef, length_replicate. }
  eexists. split.
  { apply Optimizer_step_unclipped; [done| |done].
    rewrite Hfunc. apply Training_default_rate. }
  unfold Training.fresh. simpl. split_and!; [|done..].
  rewrite Hkeep. simpl. by rewrite Optimizer_scaled_length.
Qed.

(** [clip] and [step] leave the coefficients and the schedule alone. *)
Lemma Optimizer_clip_frame (self self' : Optimizer.t S) :
  Optimizer.clip self = Ok self' →
  Optimizer.coef self' = Optimizer.coef self ∧
  Optimizer.lr_func self' = Optimizer.lr_func self.
Proof.
  unfold Optimizer.clip.
  destruct (Optimizer.clip_low self); simpl; [|done].
  destruct (Optimizer.clip_high self); simpl; [|done].
  destruct (for_each _ _); simpl; [|done].
  by intros [= <-].
Qed.

Lemma Optimizer_step_frame (self self' : Optimizer.t S) epoch rate :
  Optimizer.step self epoch = Ok (rate, self') →
  Optimizer.coef self' = Optimizer.coef self ∧
  Optimizer.lr_func self' = Optimizer.lr_func self.
Proof.
  unfold Optimizer.step.
  destruct (if Optimizer.clip_grads self then Optimizer.clip self else Ok self)
    as [self1|e] eqn:Hclip; simpl; [|done].
  assert (Optimizer.coef self1 = Optimizer.coef self ∧
          Optimizer.lr_func self1 = Optimizer.lr_func self) as [Hc Hf].
  { destruct (Optimizer.clip_grads self).
    - by apply Optimizer_clip_frame.
    - by injection Hclip as <-. }
  destruct (StepLR.call _ _); simpl; [|done].
  destruct (Optimizer.set_lrs _ _ _ _); simpl; [|done].
  by intros [= _ <-].
Qed.

Lemma Training_steps_fresh (self : Optimizer.t S) epochs :
  Training.keeps_groups →
  Training.fresh self →
  ∃ self',
    Training.steps self epochs = Ok (map Training.default_rate epochs, self') ∧
    Training.fresh self'.
Proof.
  intros Hkeep. revert self.
  induction epochs as [|epoch epochs IH]; intros self Hfresh.
  - by exists self.
  - destruct (Training_step_fresh self epoch Hkeep Hfresh)
      as (self1 & Hstep & Hfresh1).
    destruct (IH self1 Hfresh1) as (self' & Hsteps & Hfresh').
    exists self'. simpl. rewrite Hstep. simpl. by rewrite Hsteps.
Qed.

End training_facts.

(** X8: on a wrapper built by [__init__], gradient clipping is off and the
    bounds are not set: [step] never clips, and calling [clip] directly
    raises an attribute error. *)
Theorem Optimizer_clip_unset {S D : Type} {backend : Torch.Backend S D}
    (params : Optimizer.params_arg) (coef : option (list float))
    (self : Optimizer.t S) :
  Optimizer.init params coef = Ok self →
  Optimizer.clip_grads self = false ∧
  Optimizer.clip self = Raise AttributeError.
Proof.
  intros (_ & _ & Hclip & Hlow & _)%Training_init_fresh.
  split; [done|]. unfold Optimizer.clip. by rewrite Hlow.
Qed.

Lemma Optimizer_clip_unset_witness :
  let params :=
    Optimizer.Single
      [Torch.mk_param (Torch.tensor [0%float])
                      (Some (Torch.tensor [5%float]))] in
  ∃ self : Optimizer.t nat,
    Optimizer.init params None = Ok self ∧
    Optimizer.clip_grads self = false ∧
    Optimizer.clip self = Raise AttributeError.
Proof.
  eexists. split; [reflexivity|].
  apply (Optimizer_clip_unset (backend := Descent.backend)
           (Optimizer.Single
              [Torch.mk_param (Torch.tensor [0%float])
                              (Some (Torch.tensor [5%float]))])
           None).
  reflexivity.
Defined.

(** X9: a training run.  When the underlying optimizer keeps its number
    of parameter groups as it steps, a wrapper built by [__init__] can be
    stepped through any sequence of epochs without an error, and every call
    returns 1e-3 for an epoch below 32 and 1e-4 from epoch 32 on: the rate
    changes exactly at the threshold, whatever happened before. *)
Theorem Training_rates {S D : Type} {backend : Torch.Backend S D}
    (params : Optimizer.params_arg) (coef : option (list float))
    (self : Optimizer.t S) (epochs : list Z) :
  Training.keeps_groups →
  Optimizer.init params coef = Ok self →
  ∃ self',
    Training.steps self epochs
    = Ok (map (λ epoch, if (epoch <? 32)%Z then StepLR.rate_hi
                        else StepLR.rate_lo) epochs, self') ∧
    Optimizer.coef self' = Optimizer.coef self ∧
    Optimizer.lr_func self' = Optimizer.lr_func self.
Proof.
  intros Hkeep Hinit. pose proof (Training_init_fresh _ _ _ Hinit) as Hfresh.
  destruct (Training_steps_fresh self epochs Hkeep Hfresh)
    as (self' & Hsteps & Hfresh').
  exists self'. split; [done|].
  assert (Hframe : ∀ es (s s' : Optimizer.t S) lrs,
            Training.steps s es = Ok (lrs, s') →
            Optimizer.coef s' = Optimizer.coef s ∧
            Optimizer.lr_func s' = Optimizer.lr_func s).
  { clear. induction es as [|e es IH]; intros s s' lrs; simpl.
    - by intros [= _ <-].
    - destruct (Optimizer.step s e) as [[lr s1]|] eqn:Hstep; simpl; [|done].
      destruct (Training.steps s1 es) as [[lrs' s2]|] eqn:Hrest; simpl;
        [|done].
      intros [= _ <-].
      destruct (Optimizer_step_frame _ _ _ _ Hstep) as [Hc Hf].
      destruct (IH _ _ _ Hrest) as [Hc' Hf']. split; congruence. }
  by apply (Hframe epochs _ _ _ Hsteps).
Qed.

Lemma Descent_keeps_groups : Training.keeps_groups (backend := Descent.backend).
Proof. intros o. simpl. unfold Descent.step. simpl. apply length_map. Defined.

Lemma Training_rates_witness :
  let params :=
    Optimizer.Single
      [Torch.mk_param (Torch.tensor [0%float])
                      (Some (Torch.tensor [5%float]))] in
  Training.keeps_groups (backend := Descent.backend) ∧
  ∃ self self' : Optimizer.t nat,
    Optimizer.init params None = Ok self ∧
    Training.steps self [0; 31; 32; 1000]%Z
    = Ok ([StepLR.rate_hi; StepLR.rate_hi; StepLR.rate_lo; StepLR.rate_lo],
          self').
Proof.
  split; [exact Descent_keeps_groups|].
  eexists.
  destruct (Training_rates (backend := Descent.backend)
              (Optimizer.Single
                 [Torch.mk_param (Torch.tensor [0%float])
                                 (Some (Torch.tensor [5%float]))])
              None _ [0; 31; 32; 1000]%Z Descent_keeps_groups eq_refl)
    as (self' & Hsteps & _).
  exists self'. split; [reflexivity|exact Hsteps].
Defined.

(** ** More on the schedule *)

Lemma StepLR_scan_cons epoch th ths :
  StepLR.scan epoch (th :: ths) 0
  = if (epoch <? th)%Z then 0 else S (StepLR.scan epoch ths 0).
Proof.
  simpl. destruct (epoch <? th)%Z; [done|]. by rewrite StepLR_scan_shift.
Qed.

(** X10: the index the schedule selects never decreases as the epoch
    grows, whatever the thresholds: a later epoch never gets the rate of an
    earlier position. *)
Theorem StepLR_index_monotone (thresholds : list Z) (epoch1 epoch2 : Z) :
  (epoch1 ≤ epoch2)%Z →
  StepLR.scan epoch1 thresholds 0 ≤ StepLR.scan epoch2 thresholds 0.
Proof.
  intros Hle. induction thresholds as [|th ths IH]; [done|].
  rewrite !StepLR_scan_cons.
  destruct (Z.ltb_spec epoch1 th), (Z.ltb_spec epoch2 th); lia.
Qed.

Lemma StepLR_index_monotone_witness :
  (31 ≤ 40)%Z ∧
  StepLR.scan 31 [32; 10]%Z 0 ≤ StepLR.scan 40 [32; 10]%Z 0.
Proof.
  split; [lia|]. apply (StepLR_index_monotone [32; 10]%Z 31 40). lia.
Defined.

Lemma filter_none (epoch : Z) (ths : list Z) :
  Forall (λ th, (epoch < th)%Z) ths →
  filter (λ th, (th ≤ epoch)%Z) ths = [].
Proof.
  induction 1 as [|th ths Hth _ IH]; [done|].
  rewrite filter_cons_False by lia. exact IH.
Qed.

(** X11: when the thresholds are in non-decreasing order, the schedule
    returns the rate whose position is the number of thresholds at or
    below the epoch. *)
Theorem StepLR_call_counts (self : StepLR.t) (epoch : Z) :
  StronglySorted Z.le (StepLR.lr_epochs self) →
  StepLR.call self epoch
  = getitem (StepLR.lr self)
            (length (filter (λ th, (th ≤ epoch)%Z) (StepLR.lr_epochs self))).
Proof.
  intros Hsorted. unfold StepLR.call. f_equal.
  induction Hsorted as [|th ths _ IH Hall]; [done|].
  rewrite StepLR_scan_cons. destruct (Z.ltb_spec epoch th) as [Hlt|Hge].
  - rewrite filter_cons_False by lia.
    rewrite filter_none; [done|].
    apply (Forall_impl _ _ _ Hall). intros th' Hth'. lia.
  - rewrite filter_cons_True by lia. simpl. by rewrite IH.
Qed.

Lemma StepLR_call_counts_witness :
  StronglySorted Z.le (StepLR.lr_epochs StepLR.default) ∧
  StepLR.call StepLR.default 40
  = getitem (StepLR.lr StepLR.default)
            (length (filter (λ th, (th ≤ 40)%Z)
                            (StepLR.lr_epochs StepLR.default))).
Proof.
  assert (Hs : StronglySorted Z.le (StepLR.lr_epochs StepLR.default))
    by (repeat constructor).
  split; [exact Hs|]. exact (StepLR_call_counts StepLR.default 40 Hs).
Defined.

(** With thresholds out of order the count is not what the loop
    computes: it stops at the first threshold above the epoch. *)
Example StepLR_unsorted :
  StepLR.call (StepLR.mk [1%float; 2%float; 3%float] [32; 10]%Z) 20
    = Ok 1%float ∧
  length (filter (λ th, (th ≤ 20)%Z) [32; 10]%Z) = 1.
Proof. split; reflexivity. Qed.

(** ** More on [load_pretrain] *)

Lemma Net_copy_again param input_param :
  Net.copy_ (Net.copy_ param input_param) input_param
  = Net.copy_ param input_param.
Proof. done. Qed.

(** X12: [load_pretrain] never changes the shape of a parameter, and it is
    idempotent: loading the same checkpoint into the loaded model changes
    nothing. *)
Theorem load_pretrain_keeps_shapes (net : gmap string Net.Tensor)
    (pretrain_dict : gmap string Net.entry) :
  ∃ net' : gmap string Net.Tensor,
    Net.load_pretrain net pretrain_dict = Ok net' ∧
    (∀ key current, net !! key = Some current →
       ∃ t, net' !! key = Some t ∧ Net.size t = Net.size current) ∧
    Net.load_pretrain net' pretrain_dict = Ok net'.
Proof.
  eexists. split_and!; [apply Net_load_pretrain_Ok|..].
  - intros key current Hkey. rewrite Net_loaded_lookup, Hkey.
    destruct (pretrain_dict !! key) as [e|]; [|by exists current].
    case_bool_decide; [|by exists current]. by eexists.
  - rewrite Net_load_pretrain_Ok. f_equal. apply map_eq. intros key.
    rewrite Net_loaded_lookup, Net_loaded_lookup.
    destruct (net !! key) as [current|]; [|done].
    destruct (pretrain_dict !! key) as [e|]; [|done].
    case_bool_decide as Hsize.
    + rewrite bool_decide_true by done. by rewrite Net_copy_again.
    + by rewrite bool_decide_false.
Qed.

(** X13: loading a model's own parameters, taken as a checkpoint, gives
    the model back. *)
Theorem load_pretrain_own_state (net : gmap string Net.Tensor) :
  Net.load_pretrain net (Net.Plain <$> Net.state_dict net) = Ok net.
Proof.
  rewrite Net_load_pretrain_Ok. f_equal. apply map_eq. intros key.
  rewrite Net_loaded_lookup. unfold Net.state_dict.
  rewrite lookup_fmap. destruct (net !! key) as [current|]; simpl; [|done].
  rewrite bool_decide_true by done. by rewrite Net_copy_own.
Qed.

(** ** More on [index_dict] *)

Section index_dict_errors.
Context {K : Type} `{Countable K} {V I R : Type} `{!Subscript V I R}.

Lemma IndexDict_loop_Raise (idcs : I) (keys : list K)
    (st : IndexDict.locals (K:=K) (V:=V) (R:=R)) key value e :
  key ∈ keys →
  IndexDict.data st !! key = Some value →
  subscript value idcs = Raise e →
  ∃ e', IndexDict.loop idcs keys st = Raise e'.
Proof.
  revert st. induction keys as [|k keys IH]; intros st Hin Hkey Hsub.
  - by apply elem_of_nil in Hin.
  - simpl. unfold IndexDict.body.
    destruct (IndexDict.data st !! k) as [v|] eqn:Hk; [|by eexists].
    destruct (subscript v idcs) as [x|e0] eqn:Hv; simpl; [|by eexists].
    apply elem_of_cons in Hin as [->|Hin]; [congruence|].
    by apply IH.
Qed.

End index_dict_errors.

(** X14: [index_dict] raises as soon as one value of the mapping cannot be
    subscripted by the selector: no partial result is returned. *)
Theorem index_dict_raises {K : Type} `{Countable K} {V I R : Type}
    `{!Subscript V I R} (d : gmap K V) (idcs : I) (key : K) (value : V)
    (e : PyError) :
  d !! key = Some value →
  subscript value idcs = Raise e →
  ∃ e', IndexDict.index_dict d idcs = Raise e'.
Proof.
  intros Hkey Hsub. unfold IndexDict.index_dict, IndexDict.run.
  destruct (IndexDict_loop_Raise idcs (map_to_list d).*1
              (IndexDict.mk d ∅) key value e) as [e' He']; [|done|done|].
  - apply list_elem_of_fmap. exists (key, value). split; [done|].
    by apply elem_of_map_to_list.
  - exists e'. by rewrite He'.
Qed.

Lemma index_dict_raises_witness :
  let d : gmap string (list Z) := {[ "x" := [10; 11; 12]%Z; "y" := [20]%Z ]} in
  d !! "y" = Some [20]%Z ∧
  subscript (R:=Z) [20]%Z 1 = Raise IndexError ∧
  ∃ e', IndexDict.index_dict (R:=Z) d 1 = Raise e'.
Proof.
  split; [reflexivity|]. split; [reflexivity|].
  apply (index_dict_raises
           ({[ "x" := [10; 11; 12]%Z; "y" := [20]%Z ]} : gmap string (list Z))
           1 "y" [20]%Z IndexError); reflexivity.
Defined.

(** ** More on [to_long] *)

(** X15: [to_long] can be applied again to what it returned: the second
    call succeeds as well and returns a reference holding the same
    container as the first. *)
Theorem to_long_twice (h : list ToLong.obj) (l : nat) (t : ToLong.tree)
    (fuel : nat) :
  ToLong.repr h l t →
  ToLong.tsize t ≤ fuel →
  ∃ h1 l1 h2 l2,
    ToLong.to_long fuel h l = Ok (h1, l1) ∧
    ToLong.to_long fuel h1 l1 = Ok (h2, l2) ∧
    ToLong.repr h1 l1 (ToLong.convert t) ∧
    ToLong.repr h2 l2 (ToLong.convert t).
Proof.
  intros Hr Hsize.
  destruct (ToLong_rec_ok_all fuel h l t Hsize Hr)
    as (h1 & l1 & Hcall1 & Hr1 & _ & _).
  destruct (ToLong_rec_ok_all fuel h1 l1 (ToLong.convert t))
    as (h2 & l2 & Hcall2 & Hr2 & _ & _);
    [by rewrite ToLong_tsize_convert|done|].
  rewrite ToLong_convert_idem in Hr2.
  by exists h1, l1, h2, l2.
Qed.

Lemma to_long_twice_witness :
  ToLong.repr ToLong.sample 0 ToLong.sample_tree ∧
  ToLong.tsize ToLong.sample_tree ≤ 6 ∧
  ∃ h1 l1 h2 l2,
    ToLong.to_long 6 ToLong.sample 0 = Ok (h1, l1) ∧
    ToLong.to_long 6 h1 l1 = Ok (h2, l2) ∧
    ToLong.repr h1 l1 (ToLong.convert ToLong.sample_tree) ∧
    ToLong.repr h2 l2 (ToLong.convert ToLong.sample_tree).
Proof.
  split; [exact ToLong_sample_repr|]. split; [simpl; lia|].
  apply (to_long_twice ToLong.sample 0 ToLong.sample_tree 6
           ToLong_sample_repr).
  simpl. lia.
Defined.

(** X16: on a dictionary whose first item is the dictionary itself the
    recursion never ends: whatever the recursion limit, [to_long] raises a
    recursion error. *)
Theorem to_long_cyclic (fuel : nat) (h : list ToLong.obj) (l : nat)
    (key : string) (rest : list (string * nat)) :
  h !! l = Some (ToLong.ODict ((key, l) :: rest)) →
  ToLong.to_long fuel h l = Raise RecursionError.
Proof.
  intros Hl. induction fuel as [|fuel IH]; [done|].
  rewrite ToLong_to_long_S, Hl. rewrite fmap_cons.
  cbn [ToLong.dict_loop fst]. rewrite Hl.
  pose proof (ToLong_dict_get_middle [] key l rest (not_elem_of_nil _)) as Hget.
  rewrite app_nil_l in Hget. rewrite Hget.
  cbn [rbind]. by rewrite IH.
Qed.

Lemma to_long_cyclic_witness :
  let h := [ToLong.ODict [("self", 0); ("x", 1)];
            ToLong.OTensor (ToLong.IntTensor ToLong.Int16 [1]%Z)] in
  h !! 0 = Some (ToLong.ODict [("self", 0); ("x", 1)]) ∧
  ToLong.to_long 1000 h 0 = Raise RecursionError.
Proof.
  split; [reflexivity|].
  apply (to_long_cyclic 1000
           [ToLong.ODict [("self", 0); ("x", 1)];
            ToLong.OTensor (ToLong.IntTensor ToLong.Int16 [1]%Z)]
           0 "self" [("x", 1)]).
  reflexivity.
Defined.

(** ** Floating-point facts for [rotate] *)


















(** ** [rotate] *)


Section rotate_facts.
Context `{trig : Rotate.Trig}.

Lemma Rotate_assign_Ok d n v :
  length (Torch.elems v) = n →
  Rotate.assign d n v
  = Ok (map (Dtype.convert (Torch.dtype v) d) (Torch.elems v)).
Proof.
  intros Hlen. unfold Rotate.assign. by rewrite length_map, Hlen, Nat.eqb_refl.
Qed.

Lemma Rotate_matmul_rows d dθ angles rows :
  Rotate.matmul d
    (zip_with (λ '(a, b) '(c, d), ((a, b), (c, d)))
       (zip (map (Dtype.convert dθ d) (map (Rotate.cos dθ) angles))
            (map (Dtype.convert dθ d)
                 (map PrimFloat.opp (map (Rotate.sin dθ) angles))))
       (zip (map (Dtype.convert dθ d) (map (Rotate.sin dθ) angles))
            (map (Dtype.convert dθ d) (map (Rotate.cos dθ) angles))))
    rows
  = zip_with (λ angle p, Rotate.apply d (Rotate.rotation dθ d angle) p)
             angles rows.
Proof.
  revert rows. induction angles as [|angle angles IH]; intros [|[x y] rows];
    simpl; try done.
  f_equal. apply IH.
Qed.

(** [rotate] with one angle per point: it succeeds, and row [i] is the
    rotation matrix of angle [i] applied to point [i]. *)
Lemma Rotate_rotate_Ok xy theta :
  length (Torch.elems theta) = length (Rotate.rows xy) →
  Rotate.rotate xy theta
  = Ok (Rotate.mk_points (Rotate.dtype xy)
          (zip_with
             (λ angle p,
                Rotate.apply (Rotate.dtype xy)
                  (Rotate.rotation (Torch.dtype theta) (Rotate.dtype xy) angle)
                  p)
             (Torch.elems theta) (Rotate.rows xy))).
Proof.
  intros Hlen. unfold Rotate.rotate.
  rewrite !Rotate_assign_Ok by (simpl; by rewrite ?length_map).
  simpl. by rewrite Rotate_matmul_rows.
Qed.


End rotate_facts.



(** At the angle zero, whatever the platform's sine and cosine: a point of
    finite coordinates comes back as it is, a coordinate -0 can come back
    as +0, and an infinite coordinate turns the other one into NaN. *)
Example rotate_zero_run `{trig : Rotate.Trig} :
  Rotate.rotate
    (Rotate.mk_points Dtype.Float64
       [(3%float, 4%float); ((-0)%float, (-1)%float); (1%float, infinity)])
    (Torch.tensor64 [0%float; 0%float; 0%float])
  = Ok (Rotate.mk_points Dtype.Float64
          [(3%float, 4%float); (0%float, (-1)%float); (nan, infinity)]).
Proof.
  rewrite Rotate_rotate_Ok by done. simpl. unfold Rotate.rotation.
  rewrite (Rotate.sin_zero _ 0%float eq_refl),
          (Rotate.cos_zero _ 0%float eq_refl).
  vm_compute. reflexivity.
Qed.


(** ** What [clip] leaves alone *)

Lemma Optimizer_clip_param_frame low high p p' :
  Optimizer.clip_param low high p = Ok p' → same_but_grad_elems p p'.
Proof.
  unfold Optimizer.clip_param, same_but_grad_elems.
  destruct (Torch.grad p) as [g|] eqn:Hg.
  - destruct (Optimizer.clip_grad low high g) as [g'|e] eqn:Hclip; simpl;
      [|done].
    intros [= <-]. simpl. split; [done|].
    destruct (Optimizer_clip_grad_inv _ _ _ _ Hclip) as [Hl Hh].
    rewrite (Optimizer_clip_grad_Ok low high g Hl Hh) in Hclip.
    injection Hclip as <-. simpl. by rewrite length_map.
  - intros [= <-]. by rewrite Hg.
Qed.

(** X19: [clip] touches nothing but the elements of the gradients: when it
    returns, the coefficients, the schedule, the clipping settings and the
    state of the underlying optimizer are as before, and so are the
    parameter groups but for the gradients, which keep their element type
    and their number of elements; a parameter without a gradient is still
    without one. *)
Theorem Optimizer_clip_frame_groups {S : Type} (self self' : Optimizer.t S) :
  Optimizer.clip self = Ok self' →
  Optimizer.coef self' = Optimizer.coef self ∧
  Optimizer.lr_func self' = Optimizer.lr_func self ∧
  Optimizer.clip_grads self' = Optimizer.clip_grads self ∧
  Optimizer.clip_low self' = Optimizer.clip_low self ∧
  Optimizer.clip_high self' = Optimizer.clip_high self ∧
  Torch.inner (Optimizer.opt self') = Torch.inner (Optimizer.opt self) ∧
  Forall2 (λ g g',
             Torch.lr g' = Torch.lr g ∧
             Forall2 same_but_grad_elems (Torch.params g) (Torch.params g'))
          (Torch.param_groups (Optimizer.opt self))
          (Torch.param_groups (Optimizer.opt self')).
Proof.
  unfold Optimizer.clip.
  destruct (Optimizer.clip_low self) as [low|] eqn:Hlow; simpl; [|done].
  destruct (Optimizer.clip_high self) as [high|] eqn:Hhigh; simpl; [|done].
  destruct (for_each _ (Torch.param_groups (Optimizer.opt self)))
    as [groups|e] eqn:Hgroups; simpl; [|done].
  intros [= <-]. simpl. split_and!; [done..|].
  apply for_each_Ok_inv in Hgroups.
  apply (Forall2_impl _ _ _ _ Hgroups). intros g g'.
  unfold Optimizer.clip_group.
  destruct (for_each _ (Torch.params g)) as [ps|e] eqn:Hps; simpl; [|done].
  intros [= <-]. simpl. split; [done|].
  apply for_each_Ok_inv in Hps. apply (Forall2_impl _ _ _ _ Hps).
  apply Optimizer_clip_param_frame.
Qed.

Lemma Optimizer_clip_frame_groups_witness :
  let self := Descent.clipping [(-3)%float; 0.5%float; 7%float] in
  let self' := Descent.clipping [(-1)%float; 0.5%float; 1%float] in
  Optimizer.clip self = Ok self' ∧
  Optimizer.coef self' = Optimizer.coef self ∧
  Torch.inner (Optimizer.opt self') = Torch.inner (Optimizer.opt self).
Proof.
  assert (Hclip : Optimizer.clip
                    (Descent.clipping [(-3)%float; 0.5%float; 7%float])
                  = Ok (Descent.clipping [(-1)%float; 0.5%float; 1%float]))
    by (vm_compute; reflexivity).
  split; [exact Hclip|].
  destruct (Optimizer_clip_frame_groups _ _ Hclip)
    as (Hcoef & _ & _ & _ & _ & Hinner & _).
  split; [exact Hcoef | exact Hinner].
Defined.

(** ** [rotate] with a single angle *)

Section rotate_broadcast.
Context `{trig : Rotate.Trig}.

Lemma Rotate_assign_broadcast d n dθ x :
  n ≠ 1 →
  Rotate.assign d n (Torch.mk_tensor dθ [x])
  = Ok (replicate n (Dtype.convert dθ d x)).
Proof.
  intros Hn. unfold Rotate.assign. simpl.
  destruct n as [|[|n]]; simpl; done.
Qed.

Lemma Rotate_assign_Raise d n v :
  length (Torch.elems v) ≠ n → length (Torch.elems v) ≠ 1 →
  Rotate.assign d n v = Raise RuntimeError.
Proof.
  intros Hn H1. unfold Rotate.assign. rewrite length_map.
  destruct (Nat.eqb_spec (length (Torch.elems v)) n) as [?|_]; [done|].
  destruct (Torch.elems v) as [|x [|y l]]; simpl in *; done.
Qed.

Lemma Rotate_matmul_replicate d (m : Rotate.matrix) rows :
  Rotate.matmul d
    (zip_with (λ '(a, b) '(c, d), ((a, b), (c, d)))
       (zip (replicate (length rows) (fst (fst m)))
            (replicate (length rows) (snd (fst m))))
       (zip (replicate (length rows) (fst (snd m)))
            (replicate (length rows) (snd (snd m)))))
    rows
  = map (Rotate.apply d m) rows.
Proof.
  destruct m as [[a b] [c e]]. simpl.
  induction rows as [|[x y] rows IH]; simpl; [done|]. f_equal. apply IH.
Qed.

End rotate_broadcast.

(** X20: the angles are broadcast: given a single angle, [rotate] applies
    its rotation matrix to every point; given any other number of angles
    that is not the number of points, it raises. *)
Theorem rotate_broadcasts `{trig : Rotate.Trig} (xy : Rotate.Points)
    (theta : Torch.Tensor) :
  length (Torch.elems theta) ≠ length (Rotate.rows xy) →
  match Torch.elems theta with
  | [angle] =>
      Rotate.rotate xy theta
      = Ok (Rotate.mk_points (Rotate.dtype xy)
              (map (Rotate.apply (Rotate.dtype xy)
                      (Rotate.rotation (Torch.dtype theta) (Rotate.dtype xy)
                         angle))
                   (Rotate.rows xy)))
  | _ => Rotate.rotate xy theta = Raise RuntimeError
  end.
Proof.
  intros Hlen. destruct theta as [dθ angles]. simpl in *.
  destruct angles as [|angle [|angle' angles]].
  - unfold Rotate.rotate. simpl.
    rewrite Rotate_assign_Raise; [done|simpl..]; [done|lia].
  - unfold Rotate.rotate, Rotate.neg. simpl.
    rewrite !Rotate_assign_broadcast by (simpl in Hlen; lia). simpl.
    f_equal. f_equal.
    apply (Rotate_matmul_replicate (Rotate.dtype xy)
             (Rotate.rotation dθ (Rotate.dtype xy) angle)).
  - unfold Rotate.rotate. simpl.
    rewrite Rotate_assign_Raise; [done|simpl; rewrite length_map..];
      [done|lia].
Qed.

Lemma rotate_broadcasts_witness :
  let xy := Rotate.mk_points Dtype.Float64
              [(3%float, 4%float); ((-0.5)%float, 2%float)] in
  length (Torch.elems (Torch.tensor64 [0%float])) ≠ length (Rotate.rows xy) ∧
  Rotate.rotate (H := Rotate.small_angle) xy (Torch.tensor64 [0%float])
  = Ok xy.
Proof.
  split; [simpl; lia|].
  rewrite (rotate_broadcasts (trig := Rotate.small_angle)
             (Rotate.mk_points Dtype.Float64
                [(3%float, 4%float); ((-0.5)%float, 2%float)])
             (Torch.tensor64 [0%float])) by (simpl; lia).
  vm_compute. reflexivity.
Defined.
